(** * Sonic: speed change of a mono audio stream (sonic.c)

    A shallow embedding of [sonic.c] and the verification of its stream
    queues, its pitch-period search and its period resampler.

    Conventions of the embedding.
    - A C [int] is a [Z].  Signed overflow is undefined in C, so no
      wrap-around is written out; every statement is about executions whose
      integers stay inside the range of [int].
    - [float] and [double] arithmetic goes through the interface
      [FloatArith]; the instance [ieee] gives the IEEE-754 binary32 and
      binary64 operations (round to nearest even, no excess precision).
      The conversion [(int)d] is undefined in C when the integer part of
      [d] is outside the range of [int]; [ieee] answers [INT_MIN] there,
      like the x86 instruction, and the statements that give a converted
      value say when the conversion is defined.
    - A buffer ([float *]) is [option (list float)]: [None] is the null
      pointer, [Some l] an allocation of [length l] cells.
    - [realloc] and [calloc] ask an oracle ([heap]) whether the request
      succeeds.
    - A stateful function of the source is a computation in the monad [M]
      over the allocator oracle and the stream structure; [None] is
      undefined behaviour (a store through a null pointer, a copy past the
      end of an allocation, a loop that never ends). *)

From Stdlib Require Import ZArith List Bool Lia QArith Qabs.
From Stdlib Require Import Floats.SpecFloat.
Import ListNotations.
Local Open Scope Z_scope.

(* ------------------------------------------------------------------ *)
(** ** Floating-point interface *)

(** The operations on [float] and [double] that sonic.c uses.  The fields
    are named after the C operation they stand for. *)
Class FloatArith : Type := {
  float : Type;
  double : Type;
  (** the all-zero bit pattern written by [calloc] and [memset(.., 0, ..)] *)
  f_zero : float;
  f_add : float -> float -> float;
  f_sub : float -> float -> float;
  f_mul : float -> float -> float;
  f_neg : float -> float;
  (** conversions: [(float)i], [(double)f], [(float)d], [(double)i], [(int)d] *)
  i2f : Z -> float;
  f2d : float -> double;
  d2f : double -> float;
  i2d : Z -> double;
  d2i : double -> Z;
  d_add : double -> double -> double;
  d_sub : double -> double -> double;
  d_mul : double -> double -> double;
  d_div : double -> double -> double;
  d_lt : double -> double -> bool;
  d_le : double -> double -> bool;
  (** a decimal literal of the source, given by its exact rational value *)
  d_lit : Q -> double
}.

(** IEEE-754 arithmetic, from the executable specification of the Standard
    Library: binary32 has precision 24 and [emax] 128, binary64 has
    precision 53 and [emax] 1024. *)
Module IEEE.

Definition of_Z (prec emax : Z) (z : Z) : spec_float :=
  binary_normalize prec emax z 0 false.

(** Rounding of a finite value to the format [prec], [emax]. *)
Definition round_to (prec emax : Z) (x : spec_float) : spec_float :=
  match x with
  | S754_finite s m e => binary_normalize prec emax (cond_Zopp s (Zpos m)) e s
  | _ => x
  end.

(** The integer part of a finite value: truncation toward zero. *)
Definition trunc (x : spec_float) : Z :=
  match x with
  | S754_finite s m e =>
      cond_Zopp s (if 0 <=? e then Zpos m * 2 ^ e else Z.quot (Zpos m) (2 ^ (- e)))
  | _ => 0
  end.

(** [(int)x]: the integer part of [x] when it is in the range of [int].
    The conversion is undefined in C for a NaN, an infinity and a value
    whose integer part is outside that range; there the embedding answers
    [INT_MIN], like the x86 conversion instruction. *)
Definition to_Z (x : spec_float) : Z :=
  match x with
  | S754_zero _ => 0
  | S754_finite _ _ _ =>
      let z := trunc x in
      if (- 2 ^ 31 <=? z) && (z <? 2 ^ 31) then z else - 2 ^ 31
  | _ => - 2 ^ 31
  end.

Definition lit (prec emax : Z) (q : Q) : spec_float :=
  SFdiv prec emax (of_Z prec emax (Qnum q)) (of_Z prec emax (Zpos (Qden q))).

End IEEE.

#[export] Instance ieee : FloatArith := {|
  float := spec_float;
  double := spec_float;
  f_zero := S754_zero false;
  f_add := SFadd 24 128;
  f_sub := SFsub 24 128;
  f_mul := SFmul 24 128;
  f_neg := SFopp;
  i2f := IEEE.of_Z 24 128;
  f2d := IEEE.round_to 53 1024;
  d2f := IEEE.round_to 24 128;
  i2d := IEEE.of_Z 53 1024;
  d2i := IEEE.to_Z;
  d_add := SFadd 53 1024;
  d_sub := SFsub 53 1024;
  d_mul := SFmul 53 1024;
  d_div := SFdiv 53 1024;
  d_lt := SFltb;
  d_le := SFleb;
  d_lit := IEEE.lit 53 1024
|}.

(* ------------------------------------------------------------------ *)
(** ** Memory: allocations, copies and the allocator oracle *)

Section Memory.
Context {A : Type}.

Definition Zlen (l : list A) : Z := Z.of_nat (length l).
Definition take (n : Z) (l : list A) : list A := firstn (Z.to_nat n) l.
Definition drop (n : Z) (l : list A) : list A := skipn (Z.to_nat n) l.

(** [p + k] for a pointer [p] into an allocation: the cells from [k] on.
    Defined up to one past the end. *)
Definition offset (p : list A) (k : Z) : option (list A) :=
  if (0 <=? k) && (k <=? Zlen p) then Some (drop k p) else None.

(** [memcpy(dst + off, src, n*sizeof(float))], also [memmove]: the source is
    a value, so an overlapping move copies as through a temporary. *)
Definition memcpy (dst : list A) (off : Z) (src : list A) (n : Z) : option (list A) :=
  if (0 <=? off) && (0 <=? n) && (off + n <=? Zlen dst) && (n <=? Zlen src)
  then Some (take off dst ++ take n src ++ drop (off + n) dst)
  else None.

(** [memset(dst + off, 0, n*sizeof(float))] *)
Definition memset (zero : A) (dst : list A) (off : Z) (n : Z) : option (list A) :=
  memcpy dst off (repeat zero (Z.to_nat n)) n.

(** [p[i] = v] *)
Definition store (p : list A) (i : Z) (v : A) : option (list A) :=
  if (0 <=? i) && (i <? Zlen p)
  then Some (take i p ++ v :: drop (i + 1) p)
  else None.

(** [p[i]] read as an rvalue; a read past the allocation is undefined in C
    and yields [dflt] here. *)
Definition load (dflt : A) (p : list A) (i : Z) : A := nth (Z.to_nat i) p dflt.

(** The allocator: the answers ([true]: the request is granted) to the
    coming requests, in order; once the list is used up every request is
    granted. *)
Definition heap : Type := list bool.

Definition grant (h : heap) : bool * heap := (hd true h, tl h).

(** [calloc(n, sizeof(float))]: [n] zeroed cells, or the null pointer. *)
Definition calloc (zero : A) (n : Z) (h : heap) : option (list A) * heap :=
  let (ok, h') := grant h in
  (if ok && (0 <=? n) then Some (repeat zero (Z.to_nat n)) else None, h').

(** [realloc(p, n*sizeof(float))]: on success the old cells are kept up to
    the new size and the new cells (indeterminate in C) hold [fill]; on
    failure the null pointer is returned. *)
Definition realloc (fill : A) (p : option (list A)) (n : Z) (h : heap)
  : option (list A) * heap :=
  let (ok, h') := grant h in
  let old := match p with Some l => l | None => [] end in
  (if ok && (0 <=? n)
   then Some (take n old ++ repeat fill (Z.to_nat (n - Zlen old)))
   else None, h').

End Memory.

(** A heap that grants every request. *)
Definition all_granted (h : heap) : Prop := Forall (fun b => b = true) h.

(* ------------------------------------------------------------------ *)
(** ** The constants of sonic.h *)

(** sonic.h is not part of the sources at hand; the constants it defines
    are parameters of the development. *)
Class SonicHeader {FA : FloatArith} : Type := {
  SONIC_MIN_PITCH : Z;
  SONIC_MAX_PITCH : Z;
  SONIC_AMDF_FREQ : Z;
  SONIC_AMDF_RANGE : double
}.

(* ------------------------------------------------------------------ *)
(** ** The stream structure and the monad of stream operations *)

Section Sonic.
Context {FA : FloatArith} {SH : SonicHeader}.

Record sonicStreamStruct : Type := mkStream {
  speed : double;
  inputBuffer : option (list float);
  outputBuffer : option (list float);
  inputBufferSize : Z;
  outputBufferSize : Z;
  numInputSamples : Z;
  numOutputSamples : Z;
  minPeriod : Z;
  maxPeriod : Z;
  maxRequired : Z;
  remainingInputToCopy : Z;
  sampleRate : Z
}.

Definition set_inputBuffer (v : option (list float)) (s : sonicStreamStruct) :=
  mkStream (speed s) v (outputBuffer s) (inputBufferSize s) (outputBufferSize s)
    (numInputSamples s) (numOutputSamples s) (minPeriod s) (maxPeriod s)
    (maxRequired s) (remainingInputToCopy s) (sampleRate s).
Definition set_outputBuffer (v : option (list float)) (s : sonicStreamStruct) :=
  mkStream (speed s) (inputBuffer s) v (inputBufferSize s) (outputBufferSize s)
    (numInputSamples s) (numOutputSamples s) (minPeriod s) (maxPeriod s)
    (maxRequired s) (remainingInputToCopy s) (sampleRate s).
Definition set_inputBufferSize (v : Z) (s : sonicStreamStruct) :=
  mkStream (speed s) (inputBuffer s) (outputBuffer s) v (outputBufferSize s)
    (numInputSamples s) (numOutputSamples s) (minPeriod s) (maxPeriod s)
    (maxRequired s) (remainingInputToCopy s) (sampleRate s).
Definition set_outputBufferSize (v : Z) (s : sonicStreamStruct) :=
  mkStream (speed s) (inputBuffer s) (outputBuffer s) (inputBufferSize s) v
    (numInputSamples s) (numOutputSamples s) (minPeriod s) (maxPeriod s)
    (maxRequired s) (remainingInputToCopy s) (sampleRate s).
Definition set_numInputSamples (v : Z) (s : sonicStreamStruct) :=
  mkStream (speed s) (inputBuffer s) (outputBuffer s) (inputBufferSize s)
    (outputBufferSize s) v (numOutputSamples s) (minPeriod s) (maxPeriod s)
    (maxRequired s) (remainingInputToCopy s) (sampleRate s).
Definition set_numOutputSamples (v : Z) (s : sonicStreamStruct) :=
  mkStream (speed s) (inputBuffer s) (outputBuffer s) (inputBufferSize s)
    (outputBufferSize s) (numInputSamples s) v (minPeriod s) (maxPeriod s)
    (maxRequired s) (remainingInputToCopy s) (sampleRate s).
Definition set_remainingInputToCopy (v : Z) (s : sonicStreamStruct) :=
  mkStream (speed s) (inputBuffer s) (outputBuffer s) (inputBufferSize s)
    (outputBufferSize s) (numInputSamples s) (numOutputSamples s) (minPeriod s)
    (maxPeriod s) (maxRequired s) v (sampleRate s).

(** The state a stream operation runs in. *)
Definition world : Type := heap * sonicStreamStruct.

Definition M (T : Type) : Type := world -> option (T * world).

Definition ret {T} (x : T) : M T := fun w => Some (x, w).
Definition bind {T U} (m : M T) (k : T -> M U) : M U :=
  fun w => match m w with Some (x, w') => k x w' | None => None end.
Definition undefined {T} : M T := fun _ => None.
Definition get : M sonicStreamStruct := fun w => Some (snd w, w).
Definition modify (f : sonicStreamStruct -> sonicStreamStruct) : M unit :=
  fun w => Some (tt, (fst w, f (snd w))).
Definition lift_heap {T} (f : heap -> T * heap) : M T :=
  fun w => let (x, h') := f (fst w) in Some (x, (h', snd w)).
Definition lift_option {T} (o : option T) : M T :=
  fun w => match o with Some x => Some (x, w) | None => None end.

End Sonic.

Declare Scope sonic_scope.
Delimit Scope sonic_scope with sonic.
Notation "x <- m ;; k" := (bind m (fun x => k))
  (at level 100, m at next level, right associativity) : sonic_scope.
Notation "m ;; k" := (bind m (fun _ => k))
  (at level 100, right associativity) : sonic_scope.
Notation "' pat <- m ;; k" := (bind m (fun x => match x with pat => k end))
  (at level 100, pat pattern, m at next level, right associativity) : sonic_scope.

Local Open Scope sonic_scope.

(* ------------------------------------------------------------------ *)
(** ** The functions of sonic.c *)

Section Operations.
Context {FA : FloatArith} {SH : SonicHeader}.

(** [*p] for a buffer of the stream: undefined through the null pointer. *)
Definition deref (p : option (list float)) : M (list float) := lift_option p.

(** Create a sonic stream.  [None] is the null pointer. *)
Definition sonicCreateStream (speed : double) (sampleRate : Z) (h : heap)
  : option sonicStreamStruct * heap :=
  let (stream, h) := grant h in
  let minPeriod := Z.quot sampleRate SONIC_MAX_PITCH in
  let maxPeriod := Z.quot sampleRate SONIC_MIN_PITCH in
  let maxRequired := 2 * maxPeriod in
  if negb stream then (None, h) else
  let (inputBuffer, h) := calloc f_zero maxRequired h in
  match inputBuffer with
  | None => (None, h)
  | Some _ =>
    let (outputBuffer, h) := calloc f_zero maxRequired h in
    match outputBuffer with
    | None => (None, h)
    | Some _ =>
      (Some (mkStream speed inputBuffer outputBuffer maxRequired maxRequired
               0 0 minPeriod maxPeriod maxRequired 0 sampleRate), h)
    end
  end.

(** Enlarge the output buffer if needed. *)
Definition enlargeOutputBufferIfNeeded (numSamples : Z) : M Z :=
  stream <- get ;;
  if numOutputSamples stream + numSamples >? outputBufferSize stream then
    let size := outputBufferSize stream
                + (Z.shiftr (outputBufferSize stream) 1 + numSamples) in
    modify (set_outputBufferSize size) ;;
    p <- lift_heap (realloc f_zero (outputBuffer stream) size) ;;
    modify (set_outputBuffer p) ;;
    match p with
    | None => ret 0
    | Some _ => ret 1
    end
  else ret 1.

(** Enlarge the input buffer if needed. *)
Definition enlargeInputBufferIfNeeded (numSamples : Z) : M Z :=
  stream <- get ;;
  if numInputSamples stream + numSamples >? inputBufferSize stream then
    let size := inputBufferSize stream
                + (Z.shiftr (inputBufferSize stream) 1 + numSamples) in
    modify (set_inputBufferSize size) ;;
    p <- lift_heap (realloc f_zero (inputBuffer stream) size) ;;
    modify (set_inputBuffer p) ;;
    match p with
    | None => ret 0
    | Some _ => ret 1
    end
  else ret 1.

(** Add the input samples to the input buffer. *)
Definition addSamplesToInputBuffer (samples : list float) (numSamples : Z) : M Z :=
  if numSamples =? 0 then ret 1 else
  ok <- enlargeInputBufferIfNeeded numSamples ;;
  if ok =? 0 then ret 0 else
  stream <- get ;;
  buf <- deref (inputBuffer stream) ;;
  buf' <- lift_option (memcpy buf (numInputSamples stream) samples numSamples) ;;
  modify (set_inputBuffer (Some buf')) ;;
  modify (set_numInputSamples (numInputSamples stream + numSamples)) ;;
  ret 1.

(** Remove input samples that we have already processed. *)
Definition removeInputSamples (position : Z) : M unit :=
  stream <- get ;;
  let remainingSamples := numInputSamples stream - position in
  (if remainingSamples >? 0 then
     buf <- deref (inputBuffer stream) ;;
     src <- lift_option (offset buf position) ;;
     buf' <- lift_option (memcpy buf 0 src remainingSamples) ;;
     modify (set_inputBuffer (Some buf'))
   else ret tt) ;;
  modify (set_numInputSamples remainingSamples).

(** Just copy from the array to the output buffer. *)
Definition copyToOutput (samples : list float) (numSamples : Z) : M Z :=
  ok <- enlargeOutputBufferIfNeeded numSamples ;;
  if ok =? 0 then ret 0 else
  stream <- get ;;
  buf <- deref (outputBuffer stream) ;;
  buf' <- lift_option (memcpy buf (numOutputSamples stream) samples numSamples) ;;
  modify (set_outputBuffer (Some buf')) ;;
  modify (set_numOutputSamples (numOutputSamples stream + numSamples)) ;;
  ret numSamples.

(** Just copy from the input buffer to the output buffer. *)
Definition copyInputToOutput (position : Z) : M Z :=
  stream <- get ;;
  let numSamples := remainingInputToCopy stream in
  let numSamples :=
    if numSamples >? maxRequired stream then maxRequired stream else numSamples in
  buf <- deref (inputBuffer stream) ;;
  src <- lift_option (offset buf position) ;;
  r <- copyToOutput src numSamples ;;
  if r =? 0 then ret 0 else
  modify (fun s => set_remainingInputToCopy (remainingInputToCopy s - numSamples) s) ;;
  ret numSamples.

(** Read data out of the stream: the count returned and the cells written
    to the caller's array. *)
Definition sonicReadFromStream (maxSamples : Z) : M (Z * list float) :=
  stream <- get ;;
  let numSamples := numOutputSamples stream in
  if numSamples =? 0 then ret (0, []) else
  let remainingSamples :=
    if numSamples >? maxSamples then numSamples - maxSamples else 0 in
  let numSamples := if numSamples >? maxSamples then maxSamples else numSamples in
  buf <- deref (outputBuffer stream) ;;
  samples <- lift_option
               (memcpy (repeat f_zero (Z.to_nat numSamples)) 0 buf numSamples) ;;
  (if remainingSamples >? 0 then
     src <- lift_option (offset buf numSamples) ;;
     buf' <- lift_option (memcpy buf 0 src remainingSamples) ;;
     modify (set_outputBuffer (Some buf'))
   else ret tt) ;;
  modify (set_numOutputSamples remainingSamples) ;;
  ret (numSamples, samples).

(** Return the number of samples in the output buffer. *)
Definition sonicSamplesAvailale : M Z :=
  stream <- get ;; ret (numOutputSamples stream).

(** The sum of the inner loop of [findPitchPeriodInRange]:
    [for(xSample = 0; xSample < period; xSample += skip)].  [None] when the
    loop has not ended after [fuel] turns. *)
Fixpoint amdfLoop (fuel : nat) (samples : list float) (period skip xSample : Z)
    (diff : double) : option double :=
  if xSample <? period then
    match fuel with
    | O => None
    | S fuel' =>
      let value := f_sub (load f_zero samples xSample)
                         (load f_zero samples (xSample + period)) in
      let diff := d_add diff
                    (f2d (if d_le (d_lit 0) (f2d value) then value else f_neg value)) in
      amdfLoop fuel' samples period skip (xSample + skip) diff
    end
  else Some diff.

(** The outer loop: [for(period = minPeriod; period <= maxPeriod; period += skip)]. *)
Fixpoint periodLoop (fuel : nat) (samples : list float) (maxPeriod skip period : Z)
    (bestPeriod : Z) (minDiff : double) : option Z :=
  if period <=? maxPeriod then
    match fuel with
    | O => None
    | S fuel' =>
      match amdfLoop (Z.to_nat period) samples period skip 0 (d_lit 0) with
      | None => None
      | Some diff =>
        if (bestPeriod =? 0) || d_lt diff (d_mul minDiff (i2d period)) then
          let diff := d_div diff (i2d period) in
          periodLoop fuel' samples maxPeriod skip (period + skip) period diff
        else
          periodLoop fuel' samples maxPeriod skip (period + skip) bestPeriod minDiff
      end
    end
  else Some bestPeriod.

(** Find the best frequency match in the range, and given a sample skip
    multiple. *)
Definition findPitchPeriodInRange (samples : list float)
    (minPeriod maxPeriod skip : Z) : option Z :=
  periodLoop (Z.to_nat (maxPeriod - minPeriod + 1)) samples maxPeriod skip
    minPeriod 0 (d_lit 0).

(** Find the pitch period: a search on the down-sampled signal, then again
    in a narrower range without down sampling. *)
Definition findPitchPeriod (stream : sonicStreamStruct) (samples : list float)
  : option Z :=
  let skip := if sampleRate stream >? SONIC_AMDF_FREQ
              then Z.quot (sampleRate stream) SONIC_AMDF_FREQ else 1 in
  match findPitchPeriodInRange samples (minPeriod stream) (maxPeriod stream) skip with
  | None => None
  | Some period =>
    let minP := d2i (d_mul (i2d period) (d_sub (d_lit 1) SONIC_AMDF_RANGE)) in
    let maxP := d2i (d_mul (i2d period) (d_add (d_lit 1) SONIC_AMDF_RANGE)) in
    let minP := if minP <? minPeriod stream then minPeriod stream else minP in
    let maxP := if maxP >? maxPeriod stream then maxPeriod stream else maxP in
    findPitchPeriodInRange samples minP maxP 1
  end.

(** The cross-fade loop of [skipPitchPeriod]:
    [for(t = 0; t < newSamples; t++) out[t] = ...], with [out] the cell
    [outPos] of the output buffer. *)
Fixpoint skipLoop (fuel : nat) (samples : list float) (period newSamples : Z)
    (scale : double) (outPos t : Z) (buf : list float) : option (list float) :=
  if t <? newSamples then
    match fuel with
    | O => None
    | S fuel' =>
      let v := d2f (d_mul scale
                 (f2d (f_add (f_mul (load f_zero samples t) (i2f (newSamples - t)))
                             (f_mul (load f_zero samples (t + period)) (i2f t))))) in
      match store buf (outPos + t) v with
      | None => None
      | Some buf' => skipLoop fuel' samples period newSamples scale outPos (t + 1) buf'
      end
    end
  else Some buf.

(** Skip over a pitch period, and copy period/speed samples to the output. *)
Definition skipPitchPeriod (samples : list float) (speed : double) (period : Z)
  : M Z :=
  newSamples <-
    (if d_le (d_lit 2) speed then
       ret (d2i (d_div (i2d period) (d_sub speed (d_lit 1))))
     else if d_lt (d_lit 1) speed then
       modify (set_remainingInputToCopy
                 (d2i (d_div (d_mul (i2d period) (d_sub (d_lit 2) speed))
                             (d_sub speed (d_lit 1))))) ;;
       ret period
     else undefined) ;;
  let scale := d_div (d_lit 1) (i2d newSamples) in
  ok <- enlargeOutputBufferIfNeeded newSamples ;;
  if ok =? 0 then ret 0 else
  stream <- get ;;
  buf <- deref (outputBuffer stream) ;;
  buf' <- lift_option (skipLoop (Z.to_nat newSamples) samples period newSamples
                         scale (numOutputSamples stream) 0 buf) ;;
  modify (set_outputBuffer (Some buf')) ;;
  modify (set_numOutputSamples (numOutputSamples stream + newSamples)) ;;
  ret newSamples.

(** The cross-fade loop of [insertPitchPeriod]. *)
Fixpoint insertLoop (fuel : nat) (samples : list float) (period newSamples : Z)
    (scale : double) (outPos t : Z) (buf : list float) : option (list float) :=
  if t <? newSamples then
    match fuel with
    | O => None
    | S fuel' =>
      let v := d2f (d_mul scale
                 (f2d (f_add (f_mul (load f_zero samples t) (i2f t))
                             (f_mul (load f_zero samples (t + period))
                                    (i2f (newSamples - t)))))) in
      match store buf (outPos + t) v with
      | None => None
      | Some buf' => insertLoop fuel' samples period newSamples scale outPos (t + 1) buf'
      end
    end
  else Some buf.

(** Insert a pitch period, and determine how much input to copy directly. *)
Definition insertPitchPeriod (samples : list float) (speed : double) (period : Z)
  : M Z :=
  newSamples <-
    (if d_lt speed (d_lit (1 # 2)) then
       ret (d2i (d_div (d_mul (i2d period) speed) (d_sub (d_lit 1) speed)))
     else
       modify (set_remainingInputToCopy
                 (d2i (d_div (d_mul (i2d period)
                                    (d_sub (d_mul (d_lit 2) speed) (d_lit 1)))
                             (d_sub (d_lit 1) speed)))) ;;
       ret period) ;;
  ok <- enlargeOutputBufferIfNeeded (period + newSamples) ;;
  if ok =? 0 then ret 0 else
  stream <- get ;;
  buf <- deref (outputBuffer stream) ;;
  buf <- lift_option (memcpy buf (numOutputSamples stream) samples period) ;;
  let scale := d_div (d_lit 1) (i2d newSamples) in
  buf' <- lift_option (insertLoop (Z.to_nat newSamples) samples period newSamples
                         scale (numOutputSamples stream + period) 0 buf) ;;
  modify (set_outputBuffer (Some buf')) ;;
  modify (set_numOutputSamples (numOutputSamples stream + (period + newSamples))) ;;
  ret newSamples.

(** One turn of the [do] loop of [sonicWriteToStream], up to the test of
    [newSamples]: the new samples and the new position. *)
Definition writeStep (speed : double) (samples : list float) (position : Z)
  : M (Z * Z) :=
  stream <- get ;;
  if remainingInputToCopy stream >? 0 then
    newSamples <- copyInputToOutput position ;;
    ret (newSamples, position + newSamples)
  else
    window <- lift_option (offset samples position) ;;
    period <- lift_option (findPitchPeriod stream window) ;;
    if d_lt (d_lit 1) speed then
      newSamples <- skipPitchPeriod window speed period ;;
      ret (newSamples, position + (period + newSamples))
    else
      newSamples <- insertPitchPeriod window speed period ;;
      ret (newSamples, position + newSamples).

(** The [do ... while(position + maxRequired <= numSamples)] loop and what
    follows it. *)
Fixpoint writeLoop (fuel : nat) (speed : double) (samples : list float)
    (numSamples maxRequired position : Z) : M Z :=
  match fuel with
  | O => undefined
  | S fuel' =>
    '(newSamples, position) <- writeStep speed samples position ;;
    if newSamples =? 0 then ret 0 (* Failed to resize output buffer *)
    else if position + maxRequired <=? numSamples then
      writeLoop fuel' speed samples numSamples maxRequired position
    else
      removeInputSamples position ;;
      ret 1
  end.

(** Resample as many pitch periods as we have buffered on the input.  A
    turn of the loop that goes on with samples produced moves [position]
    forward by one at least and leaves [position + maxRequired] within
    [numSamples], so the loop is given [numSamples + 1] turns; a run that
    would take more is not defined. *)
Definition sonicWriteToStream (samples : list float) (numSamples : Z) : M Z :=
  stream <- get ;;
  let speed := speed stream in
  let maxRequired := maxRequired stream in
  if d_lt (d_lit (999999 # 1000000)) speed && d_lt speed (d_lit (1000001 # 1000000))
  then
    (* No speed change - just copy to the output *)
    copyToOutput samples numSamples
  else
    ok <- addSamplesToInputBuffer samples numSamples ;;
    if ok =? 0 then ret 0 else
    stream <- get ;;
    if numInputSamples stream <? maxRequired then ret 1 else
    samples <- deref (inputBuffer stream) ;;
    let numSamples := numInputSamples stream in
    writeLoop (Z.to_nat numSamples + 1) speed samples numSamples maxRequired 0.

(** Force the sonic stream to generate output using whatever data it
    currently has. *)
Definition sonicFlushStream : M Z :=
  stream <- get ;;
  let maxRequired := maxRequired stream in
  let numSamples := numInputSamples stream in
  if numSamples =? 0 then ret 1 else
  r <- (if numSamples >=? maxRequired then sonicWriteToStream [] 0 else ret 1) ;;
  if r =? 0 then ret 0 else
  stream <- get ;;
  let numSamples := numInputSamples stream in (* Now numSamples < maxRequired *)
  let remainingSpace := maxRequired - numSamples in
  buf <- deref (inputBuffer stream) ;;
  buf' <- lift_option (memset f_zero buf numSamples remainingSpace) ;;
  modify (set_inputBuffer (Some buf')) ;;
  modify (set_numInputSamples maxRequired) ;;
  sonicWriteToStream [] 0.

End Operations.

(* ------------------------------------------------------------------ *)
(** ** Vocabulary of the statements *)

Section Vocabulary.
Context {FA : FloatArith} {SH : SonicHeader}.

(** The samples a buffer holds: its first [n] cells. *)
Definition queue (p : option (list float)) (n : Z) : list float :=
  match p with
  | Some b => take n b
  | None => []
  end.

Definition outputQueue (s : sonicStreamStruct) : list float :=
  queue (outputBuffer s) (numOutputSamples s).

Definition inputQueue (s : sonicStreamStruct) : list float :=
  queue (inputBuffer s) (numInputSamples s).

(** The output side of a stream is in order: the buffer is allocated with
    the recorded size and the queue fits in it. *)
Definition wf_output (s : sonicStreamStruct) : Prop :=
  exists b, outputBuffer s = Some b /\ Zlen b = outputBufferSize s /\
            0 <= numOutputSamples s <= outputBufferSize s.

Definition wf_input (s : sonicStreamStruct) : Prop :=
  exists b, inputBuffer s = Some b /\ Zlen b = inputBufferSize s /\
            0 <= numInputSamples s <= inputBufferSize s.

(** Fields that no operation after creation assigns. *)
Definition same_config (s s' : sonicStreamStruct) : Prop :=
  speed s' = speed s /\ sampleRate s' = sampleRate s /\
  minPeriod s' = minPeriod s /\ maxPeriod s' = maxPeriod s /\
  maxRequired s' = maxRequired s.

(** The input side and what is left to copy are untouched. *)
Definition same_input (s s' : sonicStreamStruct) : Prop :=
  inputBuffer s' = inputBuffer s /\ inputBufferSize s' = inputBufferSize s /\
  numInputSamples s' = numInputSamples s /\
  remainingInputToCopy s' = remainingInputToCopy s.


(** The test that opens [sonicWriteToStream]:
    [speed > 0.999999 && speed < 1.000001]. *)
Definition in_identity_window (speed : double) : bool :=
  d_lt (d_lit (999999 # 1000000)) speed && d_lt speed (d_lit (1000001 # 1000000)).


(** The calls of the public interface that move samples. *)
Inductive call : Type :=
| Write (samples : list float) (numSamples : Z)
| Read (maxSamples : Z)
| Flush.



(** Runs the calls in order, whatever each returns, and gives the samples
    the reads return, concatenated. *)
Fixpoint run_calls (calls : list call) : M (list float) :=
  match calls with
  | [] => ret []
  | Write samples numSamples :: calls =>
      sonicWriteToStream samples numSamples ;; run_calls calls
  | Read maxSamples :: calls =>
      r <- sonicReadFromStream maxSamples ;;
      rest <- run_calls calls ;;
      ret (snd r ++ rest)
  | Flush :: calls =>
      sonicFlushStream ;; run_calls calls
  end.



(** The indices [0, 1, ..., n-1] of a [for(t = 0; t < n; t++)] loop. *)
Definition Zrange (n : Z) : list Z := map Z.of_nat (seq 0 (Z.to_nat n)).

(** The cross-fade of [skipPitchPeriod] at index [t]:
    [(window[t]*(newSamples - t) + window[t + period]*t)/newSamples], the
    division by [newSamples] being the product with [1.0/newSamples]. *)
Definition skipCrossfade (window : list float) (period newSamples t : Z) : float :=
  d2f (d_mul (d_div (d_lit 1) (i2d newSamples))
         (f2d (f_add (f_mul (load f_zero window t) (i2f (newSamples - t)))
                     (f_mul (load f_zero window (t + period)) (i2f t))))).

(** The cross-fade of [insertPitchPeriod] at index [t]:
    [(window[t]*t + window[t + period]*(newSamples - t))/newSamples]. *)
Definition insertCrossfade (window : list float) (period newSamples t : Z) : float :=
  d2f (d_mul (d_div (d_lit 1) (i2d newSamples))
         (f2d (f_add (f_mul (load f_zero window t) (i2f t))
                     (f_mul (load f_zero window (t + period))
                            (i2f (newSamples - t)))))).

(** A loop that stores [f t] in the cell [outPos + t] for [t] from its
    argument up to [n - 1]: the shape of both cross-fade loops. *)
Fixpoint storeLoop (fuel : nat) (f : Z -> float) (n outPos t : Z)
    (buf : list float) : option (list float) :=
  if t <? n then
    match fuel with
    | O => None
    | S fuel' =>
      match store buf (outPos + t) (f t) with
      | None => None
      | Some buf' => storeLoop fuel' f n outPos (t + 1) buf'
      end
    end
  else Some buf.

(** The values [first, first + skip, first + 2*skip, ...] below [limit]
    (at most [fuel] of them). *)
Fixpoint stride (fuel : nat) (first limit skip : Z) : list Z :=
  match fuel with
  | O => []
  | S fuel' =>
    if first <? limit then first :: stride fuel' (first + skip) limit skip else []
  end.

Definition strided (first limit skip : Z) : list Z :=
  stride (Z.to_nat (limit - first)) first limit skip.

(** The candidate periods [minP, minP + skip, ...] up to [maxP]. *)
Definition candidates (minP maxP skip : Z) : list Z := strided minP (maxP + 1) skip.

(** [|window[i] - window[i + p]|], as the source computes it. *)
Definition absDiff (window : list float) (p i : Z) : double :=
  let value := f_sub (load f_zero window i) (load f_zero window (i + p)) in
  f2d (if d_le (d_lit 0) (f2d value) then value else f_neg value).

(** The sum of [|window[i] - window[i + p]|] over [i = 0, skip, 2*skip, ...]
    below [p], added up in this order from 0.0. *)
Definition amdfSum (window : list float) (p skip : Z) : double :=
  fold_left (fun acc i => d_add acc (absDiff window p i)) (strided 0 p skip) (d_lit 0).


(** One candidate of the scan of [findPitchPeriodInRange], on the pair
    [(bestPeriod, minDiff)]. *)
Definition scanStep (window : list float) (skip : Z) (st : Z * double) (p : Z)
  : Z * double :=
  let diff := amdfSum window p skip in
  if (fst st =? 0) || d_lt diff (d_mul (snd st) (i2d p))
  then (p, d_div diff (i2d p))
  else st.


(** The computation never changes the fields set at creation. *)
Definition keeps_config {T} (m : M T) : Prop :=
  forall w x w', m w = Some (x, w') -> same_config (snd w) (snd w').

End Vocabulary.

(** Modelled from the spec: sonic.h, which defines [SONIC_MIN_PITCH],
    [SONIC_MAX_PITCH], [SONIC_AMDF_FREQ] and [SONIC_AMDF_RANGE], is missing.
    The spec names them (lowest and highest pitch in Hz, a down-sampling
    frequency of about 11 kHz, a range of 0.2) without fixing the two
    pitches; 65 Hz and 400 Hz are the bounds of the human voice the library
    is written for.  These values serve the concrete runs only: every
    general statement holds for all values of the constants. *)
#[export] Instance sonic_h : @SonicHeader ieee := {|
  SONIC_MIN_PITCH := 65;
  SONIC_MAX_PITCH := 400;
  SONIC_AMDF_FREQ := 11000;
  SONIC_AMDF_RANGE := IEEE.lit 53 1024 (2 # 10)
|}.

(** Concrete samples for the runs: the [float] of an integer, and silence. *)
Definition samples_of (l : list Z) : list (@float ieee) := map (@i2f ieee) l.
Definition silence (n : nat) : list (@float ieee) := repeat (@f_zero ieee) n.

(** The samples [1, 2, ..., n]. *)
Definition ramp (n : nat) : list (@float ieee) := samples_of (map Z.of_nat (seq 1 n)).

(** The stream that [sonicCreateStream speed sampleRate] returns when every
    request is granted, after the calls given. *)
Definition world_after (speed : @double ieee) (sampleRate : Z) (calls : list call)
  : option world :=
  match sonicCreateStream speed sampleRate [] with
  | (Some s, h) =>
      match run_calls calls (h, s) with
      | Some (_, w) => Some w
      | None => None
      end
  | (None, _) => None
  end.


(** The exact value of a finite floating-point number. *)
Definition exact (x : spec_float) : Q :=
  match x with
  | S754_finite s m e => (inject_Z (cond_Zopp s (Zpos m)) * Qpower 2 e)%Q
  | _ => 0%Q
  end.



(** A wave of period 4. *)
Definition square_wave (n : nat) : list (@float ieee) :=
  samples_of (concat (repeat [0; 3; 0; -3] n)).
(* ------------------------------------------------------------------ *)
(** ** Vocabulary of the statements on the driver *)

Section DriverVocabulary.
Context {FA : FloatArith} {SH : SonicHeader}.

(** The output side is untouched. *)
Definition same_output (s s' : sonicStreamStruct) : Prop :=
  outputBuffer s' = outputBuffer s /\ outputBufferSize s' = outputBufferSize s /\
  numOutputSamples s' = numOutputSamples s.


(** The state of a stream between two calls that succeeded: both buffers
    are allocated with the recorded sizes and hold their queues, the period
    bounds are ordered, the window size is twice the longest period and the
    input buffer has room for a window. *)
Definition stream_ok (s : sonicStreamStruct) : Prop :=
  wf_input s /\ wf_output s /\
  0 <= minPeriod s <= maxPeriod s /\
  maxRequired s = 2 * maxPeriod s /\
  maxRequired s <= inputBufferSize s.

(** [newSamples] as [skipPitchPeriod] computes it. *)
Definition skipCount (spd : double) (period : Z) : Z :=
  if d_le (d_lit 2) spd
  then d2i (d_div (i2d period) (d_sub spd (d_lit 1)))
  else period.

(** [newSamples] as [insertPitchPeriod] computes it. *)
Definition insertCount (spd : double) (period : Z) : Z :=
  if d_lt spd (d_lit (1 # 2))
  then d2i (d_div (d_mul (i2d period) spd) (d_sub (d_lit 1) spd))
  else period.

(** The count computed for the period [p] at the speed [spd], by the
    function the driver calls at that speed, lies between 0 and [p]. *)
Definition count_in_range (spd : double) (p : Z) : bool :=
  let n := if d_lt (d_lit 1) spd then skipCount spd p else insertCount spd p in
  (0 <=? n) && (n <=? p).

(** The counts are in range for the period 0 and for every period of the
    stream. *)
Definition counts_in_range (s : sonicStreamStruct) (spd : double) : bool :=
  forallb (count_in_range spd) (0 :: candidates (minPeriod s) (maxPeriod s) 1).




End DriverVocabulary.
(* ------------------------------------------------------------------ *)
(** ** Facts about copies *)

Section MemoryFacts.
Context {A : Type}.
Implicit Types l src dst p r : list A.

Lemma Zlen_nonneg l : 0 <= Zlen l.
Proof. unfold Zlen; lia. Qed.

Lemma Zlen_app l1 l2 : Zlen (l1 ++ l2) = Zlen l1 + Zlen l2.
Proof. unfold Zlen; rewrite length_app; lia. Qed.

Lemma Zlen_repeat (x : A) n : Zlen (repeat x n) = Z.of_nat n.
Proof. unfold Zlen; now rewrite repeat_length. Qed.

Lemma Zlen_take n l : 0 <= n <= Zlen l -> Zlen (take n l) = n.
Proof. unfold Zlen, take; intros; rewrite length_firstn; lia. Qed.

Lemma Zlen_take_le n l : Zlen (take n l) <= Zlen l.
Proof. unfold Zlen, take; rewrite length_firstn; lia. Qed.

Lemma Zlen_drop n l : 0 <= n <= Zlen l -> Zlen (drop n l) = Zlen l - n.
Proof. unfold Zlen, drop; intros; rewrite length_skipn; lia. Qed.

Lemma take_nonpos n l : n <= 0 -> take n l = [].
Proof. unfold take; intros; replace (Z.to_nat n) with O by lia; reflexivity. Qed.


Lemma take_nil n : take n (@nil A) = [].
Proof. unfold take; apply firstn_nil. Qed.

Lemma drop_nil n : drop n (@nil A) = [].
Proof. unfold drop; apply skipn_nil. Qed.

Lemma take_all n l : Zlen l <= n -> take n l = l.
Proof. unfold Zlen, take; intros; apply firstn_all2; lia. Qed.

Lemma drop_all n l : Zlen l <= n -> drop n l = [].
Proof. unfold Zlen, drop; intros; apply skipn_all2; lia. Qed.

Lemma take_app_le n l1 l2 : n <= Zlen l1 -> take n (l1 ++ l2) = take n l1.
Proof.
  unfold Zlen, take; intros; rewrite firstn_app.
  replace (Z.to_nat n - length l1)%nat with O by lia.
  now rewrite firstn_O, app_nil_r.
Qed.

Lemma take_app_exact n l1 l2 : Zlen l1 = n -> take n (l1 ++ l2) = l1.
Proof. intros; rewrite take_app_le by lia; apply take_all; lia. Qed.

Lemma take_app_ge n l1 l2 :
  Zlen l1 <= n -> take n (l1 ++ l2) = l1 ++ take (n - Zlen l1) l2.
Proof.
  unfold Zlen, take; intros; rewrite firstn_app, firstn_all2 by lia.
  do 2 f_equal; lia.
Qed.

Lemma drop_app_exact n l1 l2 : Zlen l1 = n -> drop n (l1 ++ l2) = l2.
Proof.
  unfold Zlen, drop; intros; rewrite skipn_app, skipn_all2 by lia.
  replace (Z.to_nat n - length l1)%nat with O by lia; reflexivity.
Qed.


Lemma take_take n m l : 0 <= m -> take n (take m l) = take (Z.min n m) l.
Proof.
  unfold take; intros; rewrite firstn_firstn; f_equal; lia.
Qed.

Lemma drop_take n m l : 0 <= n -> drop n (take m l) = take (m - n) (drop n l).
Proof.
  unfold take, drop; intros; rewrite skipn_firstn_comm; f_equal; lia.
Qed.

Lemma drop_drop n m l : 0 <= n -> 0 <= m -> drop n (drop m l) = drop (m + n) l.
Proof.
  unfold drop; intros; rewrite skipn_skipn; f_equal; lia.
Qed.

Lemma take_drop_id n l : take n l ++ drop n l = l.
Proof. apply firstn_skipn. Qed.

Lemma take_plus n m l :
  0 <= n -> 0 <= m -> take (n + m) l = take n l ++ take m (drop n l).
Proof.
  intros; rewrite <- (take_drop_id n l) at 1.
  destruct (Z.le_gt_cases n (Zlen l)).
  - rewrite take_app_ge by (rewrite Zlen_take; lia).
    rewrite Zlen_take by (pose proof (Zlen_nonneg l); lia).
    do 2 f_equal; lia.
  - rewrite (take_all n l) at 1 2 by lia. rewrite (drop_all n l) by lia.
    rewrite app_nil_r, take_all by lia. unfold take; now rewrite firstn_nil, app_nil_r.
Qed.

(** A copy that stays inside both allocations is defined. *)
Lemma memcpy_defined dst off src n :
  0 <= off -> 0 <= n -> off + n <= Zlen dst -> n <= Zlen src ->
  memcpy dst off src n = Some (take off dst ++ take n src ++ drop (off + n) dst).
Proof.
  intros; unfold memcpy.
  replace (0 <=? off) with true by (symmetry; apply Z.leb_le; lia).
  replace (0 <=? n) with true by (symmetry; apply Z.leb_le; lia).
  replace (off + n <=? Zlen dst) with true by (symmetry; apply Z.leb_le; lia).
  replace (n <=? Zlen src) with true by (symmetry; apply Z.leb_le; lia).
  reflexivity.
Qed.

Lemma memcpy_inv dst off src n r :
  memcpy dst off src n = Some r ->
  (0 <= off /\ 0 <= n /\ off + n <= Zlen dst /\ n <= Zlen src) /\
  r = take off dst ++ take n src ++ drop (off + n) dst.
Proof.
  unfold memcpy; intros H.
  destruct (0 <=? off) eqn:E1; [|discriminate].
  destruct (0 <=? n) eqn:E2; [|discriminate].
  destruct (off + n <=? Zlen dst) eqn:E3; [|discriminate].
  destruct (n <=? Zlen src) eqn:E4; [|discriminate].
  simpl in H; inversion H; subst; split; [lia | reflexivity].
Qed.

(** A copy keeps the size of the destination. *)
Lemma memcpy_Zlen dst off src n r : memcpy dst off src n = Some r -> Zlen r = Zlen dst.
Proof.
  intros H; apply memcpy_inv in H as [(H1 & H2 & H3 & H4) ->].
  rewrite !Zlen_app, !Zlen_take, Zlen_drop by lia. lia.
Qed.

Lemma offset_defined p k : 0 <= k <= Zlen p -> offset p k = Some (drop k p).
Proof.
  intros; unfold offset.
  replace (0 <=? k) with true by (symmetry; apply Z.leb_le; lia).
  replace (k <=? Zlen p) with true by (symmetry; apply Z.leb_le; lia).
  reflexivity.
Qed.

Lemma offset_inv p k r : offset p k = Some r -> 0 <= k <= Zlen p /\ r = drop k p.
Proof.
  unfold offset; intros H.
  destruct (0 <=? k) eqn:E1; [|discriminate].
  destruct (k <=? Zlen p) eqn:E2; [|discriminate].
  simpl in H; inversion H; split; [lia | reflexivity].
Qed.


Lemma store_inv p i v r :
  store p i v = Some r -> 0 <= i < Zlen p /\ r = take i p ++ v :: drop (i + 1) p.
Proof.
  unfold store; intros H.
  destruct (0 <=? i) eqn:E1; [|discriminate].
  destruct (i <? Zlen p) eqn:E2; [|discriminate].
  simpl in H; inversion H; split; [lia | reflexivity].
Qed.

Lemma all_granted_tl (h : heap) : all_granted h -> all_granted (tl h).
Proof. destruct 1; simpl; [constructor | assumption]. Qed.


End MemoryFacts.

(* ------------------------------------------------------------------ *)
(** ** The queues of a stream *)

(** Unfolding of the monad on a goal. *)
Ltac run :=
  unfold deref;
  unfold bind, ret, get, modify, lift_heap, lift_option, undefined;
  cbn [fst snd].

Section StreamFacts.
Context {FA : FloatArith} {SH : SonicHeader}.


Lemma bind_get {T} (k : sonicStreamStruct -> M T) w : bind get k w = k (snd w) w.
Proof. reflexivity. Qed.




Lemma bind_lift_option {T U} (o : option T) (k : T -> M U) w :
  bind (lift_option o) k w = match o with Some x => k x w | None => None end.
Proof. unfold bind, lift_option; destruct o; reflexivity. Qed.

Lemma bind_inv {T U} (m : M T) (k : T -> M U) w r :
  bind m k w = Some r -> exists x w', m w = Some (x, w') /\ k x w' = Some r.
Proof.
  unfold bind; destruct (m w) as [[x w']|]; [|discriminate].
  intros H; exists x, w'; auto.
Qed.

Lemma same_config_refl s : same_config s s.
Proof. repeat split. Qed.

Lemma same_config_trans s1 s2 s3 :
  same_config s1 s2 -> same_config s2 s3 -> same_config s1 s3.
Proof. unfold same_config; intuition congruence. Qed.

Lemma same_input_refl s : same_input s s.
Proof. repeat split. Qed.

Lemma same_input_trans s1 s2 s3 :
  same_input s1 s2 -> same_input s2 s3 -> same_input s1 s3.
Proof. unfold same_input; intuition congruence. Qed.

Lemma Zlen_outputQueue s : wf_output s -> Zlen (outputQueue s) = numOutputSamples s.
Proof.
  intros (b & Hb & Hlen & Hn); unfold outputQueue; rewrite Hb; simpl.
  apply Zlen_take; lia.
Qed.

Lemma Zlen_inputQueue s : wf_input s -> Zlen (inputQueue s) = numInputSamples s.
Proof.
  intros (b & Hb & Hlen & Hn); unfold inputQueue; rewrite Hb; simpl.
  apply Zlen_take; lia.
Qed.


(** *** Reading *)

(** A read of at most [k] samples takes the first [min(n, k)] samples of
    the output queue and leaves the others, in order, at the front. *)
Lemma sonicReadFromStream_spec h s k :
  wf_output s -> 0 <= k ->
  exists s',
    sonicReadFromStream k (h, s)
    = Some ((Z.min (numOutputSamples s) k, take k (outputQueue s)), (h, s')) /\
    wf_output s' /\
    outputQueue s' = drop k (outputQueue s) /\
    numOutputSamples s' = numOutputSamples s - Z.min (numOutputSamples s) k /\
    same_config s s' /\ same_input s s'.
Proof.
  intros (b & Hb & Hlen & Hn) Hk. destruct s; cbn in Hb, Hlen, Hn; subst.
  unfold sonicReadFromStream, outputQueue, same_config, same_input, wf_output.
  run. cbn.
  match goal with |- context [?n =? 0] => destruct (n =? 0) eqn:E0 end.
  - apply Z.eqb_eq in E0; subst.
    rewrite (take_nonpos 0 b) by lia.
    rewrite take_nil, drop_nil, Z.min_l by lia.
    eexists; split; [reflexivity|]. cbn.
    repeat split; try reflexivity; try lia.
    exists b; repeat split; auto; lia.
  - apply Z.eqb_neq in E0.
    destruct (numOutputSamples0 >? k) eqn:E1; cbn.
    + apply Z.gtb_lt in E1.
      rewrite (memcpy_defined _ 0 b k) by (rewrite ?Zlen_repeat; lia).
      rewrite (take_nonpos 0) by lia.
      rewrite Z.add_0_l, (drop_all k (repeat f_zero (Z.to_nat k)))
        by (rewrite Zlen_repeat; lia).
      rewrite app_nil_r; cbn.
      replace (numOutputSamples0 - k >? 0) with true
        by (symmetry; apply Z.gtb_lt; lia).
      cbn. rewrite offset_defined by lia. cbn.
      rewrite memcpy_defined by (rewrite ?Zlen_drop; lia).
      rewrite (take_nonpos 0) by lia; cbn.
      eexists; split; [|split; [|split; [|split; [|split]]]].
      * rewrite Z.min_r by lia. rewrite take_take by lia.
        rewrite Z.min_l by lia. reflexivity.
      * eexists; cbn; split; [reflexivity|].
        rewrite Zlen_app, Zlen_take, Zlen_drop by (rewrite ?Zlen_drop; lia).
        lia.
      * cbn. rewrite take_app_exact by (rewrite Zlen_take; rewrite ?Zlen_drop; lia).
        rewrite drop_take by lia. reflexivity.
      * cbn. lia.
      * repeat split.
      * repeat split.
    + assert (numOutputSamples0 <= k)
        by (rewrite Z.gtb_ltb in E1; apply Z.ltb_ge in E1; lia).
      rewrite (memcpy_defined _ 0 b numOutputSamples0)
        by (rewrite ?Zlen_repeat; lia).
      rewrite (take_nonpos 0) by lia.
      rewrite Z.add_0_l, (drop_all _ (repeat f_zero _))
        by (rewrite Zlen_repeat; lia).
      rewrite app_nil_r; cbn.
      eexists; split; [|split; [|split; [|split; [|split]]]].
      * rewrite Z.min_l by lia.
        rewrite take_take by lia.
        rewrite Z.min_r by lia. reflexivity.
      * eexists; cbn; split; [reflexivity|]. split; [reflexivity | lia].
      * cbn. rewrite drop_all; [reflexivity | rewrite Zlen_take; lia].
      * cbn. lia.
      * repeat split.
      * repeat split.
Qed.

(** *** Growing the output buffer *)

(** Nothing happens when the request fits. *)
Lemma enlargeOutput_fits h s n :
  numOutputSamples s + n <= outputBufferSize s ->
  enlargeOutputBufferIfNeeded n (h, s) = Some (1, (h, s)).
Proof.
  intros H; unfold enlargeOutputBufferIfNeeded; run.
  replace (numOutputSamples s + n >? outputBufferSize s) with false; [reflexivity|].
  symmetry; rewrite Z.gtb_ltb; apply Z.ltb_ge; lia.
Qed.

(** The outcome of a call that has to grow the buffer. *)
Lemma enlargeOutput_grows h s n :
  numOutputSamples s + n > outputBufferSize s ->
  let size := outputBufferSize s + (Z.shiftr (outputBufferSize s) 1 + n) in
  enlargeOutputBufferIfNeeded n (h, s)
  = let p := fst (realloc f_zero (outputBuffer s) size h) in
    Some (match p with Some _ => 1 | None => 0 end,
          (tl h, set_outputBuffer p (set_outputBufferSize size s))).
Proof.
  intros H size; unfold enlargeOutputBufferIfNeeded; run.
  replace (numOutputSamples s + n >? outputBufferSize s) with true
    by (symmetry; apply Z.gtb_lt; lia).
  fold size. unfold realloc, grant; cbn.
  destruct (hd true h && (0 <=? size)); reflexivity.
Qed.

Lemma shiftr1_nonneg z : 0 <= z -> 0 <= Z.shiftr z 1.
Proof. intros; apply Z.shiftr_nonneg; assumption. Qed.

Lemma enlargeOutput_spec h s n :
  wf_output s -> 0 <= n ->
  exists r h' s',
    enlargeOutputBufferIfNeeded n (h, s) = Some (r, (h', s')) /\
    same_config s s' /\ same_input s s' /\
    numOutputSamples s' = numOutputSamples s /\
    ((r = 1 /\ wf_output s' /\ outputQueue s' = outputQueue s /\
      numOutputSamples s + n <= outputBufferSize s' /\
      outputBufferSize s <= outputBufferSize s' /\
      (all_granted h -> all_granted h'))
     \/
     (r = 0 /\ outputBuffer s' = None /\ hd true h = false /\
      numOutputSamples s + n > outputBufferSize s)).
Proof.
  intros Hwf Hn.
  destruct (Z.le_gt_cases (numOutputSamples s + n) (outputBufferSize s)) as [Hfit|Hbig].
  - rewrite enlargeOutput_fits by assumption.
    exists 1, h, s; repeat split; left; repeat split; auto; lia.
  - rewrite enlargeOutput_grows by lia.
    destruct Hwf as (b & Hb & Hlen & Hnum).
    pose proof (shiftr1_nonneg (outputBufferSize s) ltac:(lia)) as Hsh.
    unfold realloc, grant; rewrite Hb; cbn [fst].
    replace (0 <=? outputBufferSize s + (Z.shiftr (outputBufferSize s) 1 + n))
      with true by (symmetry; apply Z.leb_le; lia).
    rewrite andb_true_r.
    destruct (hd true h) eqn:Hhd.
    + do 3 eexists; split; [reflexivity|].
      repeat split. left; split; [reflexivity|].
      split; [|split; [|split; [|split]]].
      * eexists; cbn -[Z.shiftr]; split; [reflexivity|].
        rewrite take_all by lia.
        rewrite Zlen_app, Zlen_repeat. lia.
      * unfold outputQueue; cbn -[Z.shiftr]; rewrite Hb; cbn -[Z.shiftr].
        rewrite (take_all _ b) by lia. rewrite take_app_le by lia. reflexivity.
      * cbn -[Z.shiftr]; lia.
      * cbn -[Z.shiftr]; lia.
      * apply all_granted_tl.
    + do 3 eexists; split; [reflexivity|].
      repeat split. right; repeat split; [lia].
Qed.

(** *** Appending to the output queue *)


(** *** Writing at the speed of the input *)
Lemma sonicWriteToStream_identity h s samples n :
  in_identity_window (speed s) = true ->
  sonicWriteToStream samples n (h, s) = copyToOutput samples n (h, s).
Proof.
  unfold in_identity_window, sonicWriteToStream; intros H; run.
  now rewrite H.
Qed.

(** Outside the window the samples go to the input queue, and nothing else
    happens while fewer than [maxRequired] samples are queued. *)
Lemma sonicWriteToStream_queues h s samples n :
  in_identity_window (speed s) = false ->
  sonicWriteToStream samples n (h, s)
  = match addSamplesToInputBuffer samples n (h, s) with
    | Some (ok, (h', s')) =>
        if ok =? 0 then Some (0, (h', s'))
        else if numInputSamples s' <? maxRequired s then Some (1, (h', s'))
        else
          match inputBuffer s' with
          | Some buf =>
              writeLoop (Z.to_nat (numInputSamples s') + 1) (speed s) buf
                (numInputSamples s') (maxRequired s) 0 (h', s')
          | None => None
          end
    | None => None
    end.
Proof.
  unfold in_identity_window, sonicWriteToStream; intros H; run.
  rewrite H.
  destruct (addSamplesToInputBuffer samples n (h, s)) as [[ok [h' s']]|]; [|reflexivity].
  destruct (ok =? 0); [reflexivity|]. cbn.
  destruct (numInputSamples s' <? maxRequired s); [reflexivity|].
  destruct (inputBuffer s'); reflexivity.
Qed.




(** The result of the driver loop does not depend on the turns it is
    given, once they are enough for it to end. *)
Lemma writeLoop_more_fuel fuel : forall fuel' spd samples numSamples maxRequired
    position w r,
  (fuel <= fuel')%nat ->
  writeLoop fuel spd samples numSamples maxRequired position w = Some r ->
  writeLoop fuel' spd samples numSamples maxRequired position w = Some r.
Proof.
  induction fuel as [|fuel IH]; intros fuel' spd samples numSamples maxRequired
    position w r Hle Hrun; cbn [writeLoop] in Hrun.
  - discriminate Hrun.
  - destruct fuel' as [|fuel']; [lia|]. cbn [writeLoop].
    unfold bind at 1 in Hrun. unfold bind at 1.
    destruct (writeStep spd samples position w) as [[[newSamples position'] w1]|];
      [|discriminate Hrun].
    destruct (newSamples =? 0); [assumption|].
    destruct (position' + maxRequired <=? numSamples); [|assumption].
    apply IH; [lia | assumption].
Qed.

End StreamFacts.
(* ------------------------------------------------------------------ *)
(** ** Creation *)

Section Creation.
Context {FA : FloatArith} {SH : SonicHeader}.

(** What a successful creation returns. *)
Lemma sonicCreateStream_inv speed rate h s h' :
  sonicCreateStream speed rate h = (Some s, h') ->
  let maxRequired := 2 * Z.quot rate SONIC_MIN_PITCH in
  0 <= maxRequired /\
  s = mkStream speed (Some (repeat f_zero (Z.to_nat maxRequired)))
        (Some (repeat f_zero (Z.to_nat maxRequired))) maxRequired maxRequired
        0 0 (Z.quot rate SONIC_MAX_PITCH) (Z.quot rate SONIC_MIN_PITCH)
        maxRequired 0 rate /\
  h' = tl (tl (tl h)).
Proof.
  unfold sonicCreateStream, calloc, grant; cbn -[Z.mul].
  destruct (hd true h); cbn -[Z.mul]; [|discriminate].
  destruct (hd true (tl h)); cbn -[Z.mul]; [|discriminate].
  destruct (0 <=? 2 * Z.quot rate SONIC_MIN_PITCH) eqn:E; cbn -[Z.mul]; [|discriminate].
  destruct (hd true (tl (tl h))); cbn -[Z.mul]; [|discriminate].
  intros H; inversion H; subst. apply Z.leb_le in E. auto.
Qed.

Lemma sonicCreateStream_wf spd rate h s h' :
  sonicCreateStream spd rate h = (Some s, h') ->
  wf_output s /\ wf_input s /\ outputQueue s = [] /\ inputQueue s = [] /\
  numInputSamples s = 0 /\ numOutputSamples s = 0 /\ speed s = spd.
Proof.
  intros H; apply sonicCreateStream_inv in H as (Hmr & -> & _).
  unfold wf_output, wf_input, outputQueue, inputQueue; cbn -[Z.mul].
  repeat split; try (eexists; split; [reflexivity|]; rewrite Zlen_repeat; lia).
Qed.

End Creation.

(* ------------------------------------------------------------------ *)
(** ** The stream at the speed of the input, and reads in chunks *)

Section QueueClaims.
Context {FA : FloatArith} {SH : SonicHeader}.



(** C8.  Reading at most [k] samples and then at most [m] gives the same
    samples, in the same order, as one read of at most [k + m]; each read
    returns the first [min(n, max)] samples of the output queue and the
    count [min(n, max)] (0 on an empty queue), and leaves the other samples
    in order at the front of the queue. *)
Theorem read_in_chunks h s k m :
  wf_output s -> 0 <= k -> 0 <= m ->
  exists s1 s2 s12,
    sonicReadFromStream k (h, s)
    = Some ((Z.min (numOutputSamples s) k, take k (outputQueue s)), (h, s1)) /\
    sonicReadFromStream m (h, s1)
    = Some ((Z.min (numOutputSamples s1) m, take m (outputQueue s1)), (h, s2)) /\
    sonicReadFromStream (k + m) (h, s)
    = Some ((Z.min (numOutputSamples s) (k + m), take (k + m) (outputQueue s)),
            (h, s12)) /\
    take k (outputQueue s) ++ take m (outputQueue s1) = take (k + m) (outputQueue s) /\
    Z.min (numOutputSamples s) k + Z.min (numOutputSamples s1) m
    = Z.min (numOutputSamples s) (k + m) /\
    Zlen (take k (outputQueue s)) = Z.min (numOutputSamples s) k /\
    outputQueue s1 = drop k (outputQueue s) /\
    outputQueue s2 = outputQueue s12 /\
    numOutputSamples s2 = numOutputSamples s12.
Proof.
  intros Hwf Hk Hm.
  destruct (sonicReadFromStream_spec h s k Hwf Hk)
    as (s1 & Hr1 & Hwf1 & Hq1 & Hn1 & _ & _).
  destruct (sonicReadFromStream_spec h s1 m Hwf1 Hm)
    as (s2 & Hr2 & Hwf2 & Hq2 & Hn2 & _ & _).
  destruct (sonicReadFromStream_spec h s (k + m) Hwf ltac:(lia))
    as (s12 & Hr12 & Hwf12 & Hq12 & Hn12 & _ & _).
  exists s1, s2, s12.
  pose proof (Zlen_outputQueue s Hwf) as Hlen.
  destruct Hwf as (b & Hb & Hsz & Hnum).
  repeat split; try assumption.
  - rewrite Hq1. symmetry; apply take_plus; assumption.
  - lia.
  - destruct (Z.le_gt_cases k (numOutputSamples s)).
    + rewrite Zlen_take by lia. lia.
    + rewrite take_all by lia. lia.
  - rewrite Hq2, Hq12, Hq1. rewrite drop_drop by lia. reflexivity.
  - lia.
Qed.

(** C10, amended.  A write of no sample returns 0 on a stream whose speed
    is in the window [0.999999 < speed < 1.000001], and 1 on any other
    stream that has fewer than [maxRequired] samples queued as input; in
    both cases the stream and the allocator are left as they were. *)
Theorem zero_sample_write h s :
  (in_identity_window (speed s) = true -> wf_output s) ->
  (in_identity_window (speed s) = false -> numInputSamples s < maxRequired s) ->
  sonicWriteToStream [] 0 (h, s)
  = Some ((if in_identity_window (speed s) then 0 else 1), (h, s)).
Proof.
  intros Hwf Hin.
  destruct (in_identity_window (speed s)) eqn:Hid.
  - rewrite sonicWriteToStream_identity by assumption.
    destruct (Hwf eq_refl) as (b & Hb & Hlen & Hnum).
    unfold copyToOutput, bind at 1.
    rewrite enlargeOutput_fits by lia. cbn [Z.eqb]. run.
    rewrite Hb. rewrite memcpy_defined by (cbn; lia).
    rewrite Z.add_0_r. cbn [take Z.to_nat firstn app]. fold (take (numOutputSamples s) b).
    fold (drop (numOutputSamples s) b). rewrite take_drop_id.
    destruct s; cbn in *; subst; reflexivity.
  - rewrite sonicWriteToStream_queues by assumption.
    unfold addSamplesToInputBuffer; cbn [Z.eqb]. run.
    replace (numInputSamples s <? maxRequired s) with true; [reflexivity|].
    symmetry; apply Z.ltb_lt; auto.
Qed.

End QueueClaims.
(* ------------------------------------------------------------------ *)
(** ** Appending to the input queue *)

Section InputQueue.
Context {FA : FloatArith} {SH : SonicHeader}.

Lemma enlargeInput_fits h s n :
  numInputSamples s + n <= inputBufferSize s ->
  enlargeInputBufferIfNeeded n (h, s) = Some (1, (h, s)).
Proof.
  intros H; unfold enlargeInputBufferIfNeeded; run.
  replace (numInputSamples s + n >? inputBufferSize s) with false; [reflexivity|].
  symmetry; rewrite Z.gtb_ltb; apply Z.ltb_ge; lia.
Qed.

Lemma enlargeInput_grows h s n :
  numInputSamples s + n > inputBufferSize s ->
  let size := inputBufferSize s + (Z.shiftr (inputBufferSize s) 1 + n) in
  enlargeInputBufferIfNeeded n (h, s)
  = let p := fst (realloc f_zero (inputBuffer s) size h) in
    Some (match p with Some _ => 1 | None => 0 end,
          (tl h, set_inputBuffer p (set_inputBufferSize size s))).
Proof.
  intros H size; unfold enlargeInputBufferIfNeeded; run.
  replace (numInputSamples s + n >? inputBufferSize s) with true
    by (symmetry; apply Z.gtb_lt; lia).
  fold size. unfold realloc, grant; cbn.
  destruct (hd true h && (0 <=? size)); reflexivity.
Qed.


End InputQueue.
(* ------------------------------------------------------------------ *)
(** ** The period bounds are set once *)

Section Config.
Context {FA : FloatArith} {SH : SonicHeader}.

Lemma keeps_ret {T} (x : T) : keeps_config (ret x).
Proof. intros w y w' H; inversion H; apply same_config_refl. Qed.

Lemma keeps_undefined {T} : keeps_config (@undefined _ T).
Proof. intros w y w' H; discriminate. Qed.

Lemma keeps_get : keeps_config get.
Proof. intros w y w' H; inversion H; apply same_config_refl. Qed.

Lemma keeps_lift_heap {T} (f : heap -> T * heap) : keeps_config (lift_heap f).
Proof.
  intros [h s] y w'; unfold lift_heap; cbn.
  destruct (f h); intros H; inversion H; apply same_config_refl.
Qed.

Lemma keeps_lift_option {T} (o : option T) : keeps_config (lift_option o).
Proof.
  intros w y w'; unfold lift_option.
  destruct o; intros H; inversion H; apply same_config_refl.
Qed.

Lemma keeps_modify f :
  (forall s, same_config s (f s)) -> keeps_config (modify f).
Proof. intros Hf [h s] y w' H; inversion H; apply Hf. Qed.

Lemma keeps_bind {T U} (m : M T) (k : T -> M U) :
  keeps_config m -> (forall x, keeps_config (k x)) -> keeps_config (bind m k).
Proof.
  intros Hm Hk w y w'; unfold bind.
  destruct (m w) as [[x w1]|] eqn:E; [|discriminate].
  intros H. eapply same_config_trans; [eapply Hm; eassumption | eapply Hk; eassumption].
Qed.

(** Decomposes a computation along its binds, tests and matches. *)
Ltac keeps :=
  repeat first
    [ apply keeps_ret | apply keeps_undefined | apply keeps_get
    | apply keeps_lift_heap | apply keeps_lift_option
    | apply keeps_modify; intros ?; repeat split
    | match goal with H : _ |- keeps_config _ => apply H end
    | apply keeps_bind; [|intros ?]
    | match goal with
      | |- keeps_config (if ?b then _ else _) => destruct b
      | |- keeps_config (match ?x with _ => _ end) => destruct x
      | |- keeps_config (deref _) => unfold deref
      end ].

Lemma keeps_enlargeOutput n : keeps_config (enlargeOutputBufferIfNeeded n).
Proof. unfold enlargeOutputBufferIfNeeded; keeps. Qed.

Lemma keeps_enlargeInput n : keeps_config (enlargeInputBufferIfNeeded n).
Proof. unfold enlargeInputBufferIfNeeded; keeps. Qed.

Lemma keeps_addSamples samples n : keeps_config (addSamplesToInputBuffer samples n).
Proof.
  pose proof keeps_enlargeInput. unfold addSamplesToInputBuffer; keeps.
Qed.

Lemma keeps_removeInputSamples position : keeps_config (removeInputSamples position).
Proof. unfold removeInputSamples; keeps. Qed.

Lemma keeps_copyToOutput samples n : keeps_config (copyToOutput samples n).
Proof.
  pose proof keeps_enlargeOutput. unfold copyToOutput; keeps.
Qed.

Lemma keeps_copyInputToOutput position : keeps_config (copyInputToOutput position).
Proof.
  pose proof keeps_copyToOutput. unfold copyInputToOutput; keeps.
Qed.

Lemma keeps_read maxSamples : keeps_config (sonicReadFromStream maxSamples).
Proof. unfold sonicReadFromStream; keeps. Qed.

Lemma keeps_skipPitchPeriod samples spd period :
  keeps_config (skipPitchPeriod samples spd period).
Proof.
  pose proof keeps_enlargeOutput. unfold skipPitchPeriod; keeps.
Qed.

Lemma keeps_insertPitchPeriod samples spd period :
  keeps_config (insertPitchPeriod samples spd period).
Proof.
  pose proof keeps_enlargeOutput. unfold insertPitchPeriod; keeps.
Qed.

Lemma keeps_writeStep spd samples position :
  keeps_config (writeStep spd samples position).
Proof.
  pose proof keeps_copyInputToOutput.
  pose proof keeps_skipPitchPeriod. pose proof keeps_insertPitchPeriod.
  unfold writeStep; keeps.
Qed.

Lemma keeps_writeLoop fuel : forall spd samples numSamples maxRequired position,
  keeps_config (writeLoop fuel spd samples numSamples maxRequired position).
Proof.
  induction fuel as [|fuel IH]; intros; cbn [writeLoop].
  - apply keeps_undefined.
  - pose proof keeps_writeStep. pose proof keeps_removeInputSamples.
    apply keeps_bind; [auto|]. intros [newSamples position']. keeps.
Qed.

Lemma keeps_write samples n : keeps_config (sonicWriteToStream samples n).
Proof.
  pose proof keeps_copyToOutput. pose proof keeps_addSamples.
  pose proof keeps_writeLoop.
  unfold sonicWriteToStream; keeps.
Qed.

Lemma keeps_flush : keeps_config sonicFlushStream.
Proof.
  pose proof keeps_write. unfold sonicFlushStream; keeps.
Qed.

Lemma keeps_run_calls calls : keeps_config (run_calls calls).
Proof.
  pose proof keeps_write. pose proof keeps_read. pose proof keeps_flush.
  induction calls as [|[samples n|k|] calls IH]; cbn [run_calls]; keeps.
Qed.

(** C3, amended.  When [0 < SONIC_MIN_PITCH <= SONIC_MAX_PITCH] and the
    sample rate is at least [SONIC_MAX_PITCH], whatever the speed, a stream
    that [sonicCreateStream] returns has
    [minPeriod = sampleRate/SONIC_MAX_PITCH],
    [maxPeriod = sampleRate/SONIC_MIN_PITCH], [0 < minPeriod <= maxPeriod]
    and [maxRequired = 2*maxPeriod]; and no sequence of writes, reads and
    flushes changes [minPeriod], [maxPeriod] or [maxRequired]. *)
Theorem period_bounds_set_once spd rate h s h0 :
  0 < SONIC_MIN_PITCH <= SONIC_MAX_PITCH ->
  SONIC_MAX_PITCH <= rate ->
  sonicCreateStream spd rate h = (Some s, h0) ->
  (minPeriod s = Z.quot rate SONIC_MAX_PITCH /\
   maxPeriod s = Z.quot rate SONIC_MIN_PITCH /\
   0 < minPeriod s <= maxPeriod s /\
   maxRequired s = 2 * maxPeriod s) /\
  (forall calls out w',
     run_calls calls (h0, s) = Some (out, w') ->
     minPeriod (snd w') = minPeriod s /\
     maxPeriod (snd w') = maxPeriod s /\
     maxRequired (snd w') = maxRequired s).
Proof.
  intros Hpitch Hrate Hcreate. split.
  - apply sonicCreateStream_inv in Hcreate as (_ & -> & _). cbn -[Z.mul].
    rewrite !Z.quot_div_nonneg by lia.
    repeat split.
    + apply Z.div_str_pos; lia.
    + apply Z.div_le_compat_l; lia.
  - intros calls out w' Hrun.
    apply keeps_run_calls in Hrun as (_ & _ & H1 & H2 & H3). auto.
Qed.

End Config.
(* ------------------------------------------------------------------ *)
(** ** The period resampler *)

Section Resampler.
Context {FA : FloatArith} {SH : SonicHeader}.



Lemma Zlen_Zrange n : 0 <= n -> Zlen (Zrange n) = n.
Proof.
  unfold Zrange, Zlen; intros. rewrite length_map, length_seq; lia.
Qed.

(** Both cross-fade loops are store loops. *)
Lemma skipLoop_storeLoop fuel : forall samples period n scale outPos t buf,
  scale = d_div (d_lit 1) (i2d n) ->
  skipLoop fuel samples period n scale outPos t buf
  = storeLoop fuel (skipCrossfade samples period n) n outPos t buf.
Proof.
  induction fuel as [|fuel IH]; intros; subst; cbn [skipLoop storeLoop];
    [reflexivity|].
  destruct (t <? n); [|reflexivity].
  fold (skipCrossfade samples period n t).
  destruct (store buf (outPos + t) (skipCrossfade samples period n t));
    [apply IH|]; reflexivity.
Qed.

Lemma insertLoop_storeLoop fuel : forall samples period n scale outPos t buf,
  scale = d_div (d_lit 1) (i2d n) ->
  insertLoop fuel samples period n scale outPos t buf
  = storeLoop fuel (insertCrossfade samples period n) n outPos t buf.
Proof.
  induction fuel as [|fuel IH]; intros; subst; cbn [insertLoop storeLoop];
    [reflexivity|].
  destruct (t <? n); [|reflexivity].
  fold (insertCrossfade samples period n t).
  destruct (store buf (outPos + t) (insertCrossfade samples period n t));
    [apply IH|]; reflexivity.
Qed.





(** The turn of the driver loop that analyses a period. *)
Lemma writeStep_analyse h s spd samples position window period :
  remainingInputToCopy s <= 0 ->
  offset samples position = Some window ->
  findPitchPeriod s window = Some period ->
  writeStep spd samples position (h, s)
  = if d_lt (d_lit 1) spd
    then match skipPitchPeriod window spd period (h, s) with
         | Some (newSamples, w') =>
             Some ((newSamples, position + (period + newSamples)), w')
         | None => None
         end
    else match insertPitchPeriod window spd period (h, s) with
         | Some (newSamples, w') => Some ((newSamples, position + newSamples), w')
         | None => None
         end.
Proof.
  intros Hrem Hoff Hfind. unfold writeStep.
  rewrite bind_get; cbn [snd].
  replace (remainingInputToCopy s >? 0) with false
    by (symmetry; rewrite Z.gtb_ltb; apply Z.ltb_ge; lia).
  rewrite Hoff, bind_lift_option, Hfind, bind_lift_option.
  destruct (d_lt (d_lit 1) spd); unfold bind, ret.
  - destruct (skipPitchPeriod window spd period (h, s)) as [[r w']|]; reflexivity.
  - destruct (insertPitchPeriod window spd period (h, s)) as [[r w']|]; reflexivity.
Qed.



End Resampler.
(* ------------------------------------------------------------------ *)
(** ** The pitch-period search *)

Section PitchSearch.
Context {FA : FloatArith} {SH : SonicHeader}.

(** With a stride of at least 1, [limit - first] values are enough. *)
Lemma stride_enough skip limit : 1 <= skip -> forall fuel first,
  (Z.to_nat (limit - first) <= fuel)%nat ->
  stride fuel first limit skip = strided first limit skip.
Proof.
  intros Hskip; unfold strided.
  assert (H : forall fuel1 fuel2 first,
             (Z.to_nat (limit - first) <= fuel1)%nat ->
             (Z.to_nat (limit - first) <= fuel2)%nat ->
             stride fuel1 first limit skip = stride fuel2 first limit skip).
  { induction fuel1 as [|fuel1 IH]; intros fuel2 first H1 H2.
    - destruct fuel2; cbn; [reflexivity|].
      replace (first <? limit) with false; [reflexivity|].
      symmetry; apply Z.ltb_ge; lia.
    - destruct fuel2; cbn.
      + replace (first <? limit) with false; [reflexivity|].
        symmetry; apply Z.ltb_ge; lia.
      + destruct (first <? limit) eqn:E; [|reflexivity].
        apply Z.ltb_lt in E. f_equal. apply IH; lia. }
  intros; apply H; lia.
Qed.

Lemma strided_cons first limit skip :
  1 <= skip -> first < limit ->
  strided first limit skip = first :: strided (first + skip) limit skip.
Proof.
  intros Hskip Hlt. unfold strided at 1.
  destruct (Z.to_nat (limit - first)) as [|fuel] eqn:E; [lia|].
  cbn. replace (first <? limit) with true by (symmetry; apply Z.ltb_lt; lia).
  f_equal. apply stride_enough; lia.
Qed.

Lemma strided_nil first limit skip : limit <= first -> strided first limit skip = [].
Proof.
  intros; unfold strided. replace (Z.to_nat (limit - first)) with O by lia.
  reflexivity.
Qed.

(** The values of a stride: the members of [first, limit) at a multiple of
    [skip] from [first]. *)
Lemma In_strided skip limit i : 1 <= skip -> forall first,
  In i (strided first limit skip) <->
  first <= i < limit /\ (i - first) mod skip = 0.
Proof.
  intros Hskip first.
  remember (Z.to_nat (limit - first)) as k eqn:Hk.
  revert first Hk. induction k as [k IH] using lt_wf_ind; intros first Hk.
  destruct (Z_lt_le_dec first limit) as [Hlt|Hge].
  - rewrite strided_cons by lia. cbn [In].
    rewrite (IH (Z.to_nat (limit - (first + skip)))) by lia.
    split.
    + intros [<- | (H1 & H2)].
      * rewrite Z.sub_diag. split; [lia | apply Z.mod_0_l; lia].
      * split; [lia|].
        replace (i - first) with (i - (first + skip) + 1 * skip) by lia.
        rewrite Z.mod_add by lia. assumption.
    + intros (H1 & H2).
      destruct (Z.eq_dec first i) as [->|Hne]; [left; reflexivity|right].
      apply Z.mod_divide in H2; [|lia]. destruct H2 as (c & Hc).
      assert (1 <= c) by nia.
      split; [nia|].
      replace (i - (first + skip)) with ((c - 1) * skip) by nia.
      apply Z.mod_mul; lia.
  - rewrite strided_nil by lia. cbn; split; [tauto | lia].
Qed.

(** The candidates are the periods of [minP, maxP] at a multiple of [skip]
    from [minP]. *)
Lemma In_candidates minP maxP skip p :
  1 <= skip ->
  In p (candidates minP maxP skip) <->
  minP <= p <= maxP /\ (p - minP) mod skip = 0.
Proof.
  intros Hskip; unfold candidates. rewrite In_strided by assumption.
  split; intros (H1 & H2); (split; [lia | assumption]).
Qed.

(** The inner loop ends and gives the sum. *)
Lemma amdfLoop_fold window p skip : 1 <= skip -> forall fuel x acc,
  (Z.to_nat (p - x) <= fuel)%nat ->
  amdfLoop fuel window p skip x acc
  = Some (fold_left (fun acc i => d_add acc (absDiff window p i))
            (strided x p skip) acc).
Proof.
  intros Hskip. induction fuel as [|fuel IH]; intros x acc Hfuel; cbn [amdfLoop].
  - replace (x <? p) with false by (symmetry; apply Z.ltb_ge; lia).
    rewrite strided_nil by lia. reflexivity.
  - destruct (x <? p) eqn:E.
    + apply Z.ltb_lt in E. rewrite strided_cons by lia. cbn [fold_left].
      rewrite IH by lia. reflexivity.
    + apply Z.ltb_ge in E. rewrite strided_nil by lia. reflexivity.
Qed.

Lemma amdfLoop_sum window p skip :
  1 <= skip ->
  amdfLoop (Z.to_nat p) window p skip 0 (d_lit 0) = Some (amdfSum window p skip).
Proof.
  intros; unfold amdfSum. apply amdfLoop_fold; [assumption|].
  rewrite Z.sub_0_r; lia.
Qed.

(** The outer loop ends and is the scan of the candidates left. *)
Lemma periodLoop_fold window maxP skip : 1 <= skip -> forall fuel period best minDiff,
  (Z.to_nat (maxP + 1 - period) <= fuel)%nat ->
  periodLoop fuel window maxP skip period best minDiff
  = Some (fst (fold_left (scanStep window skip)
                 (strided period (maxP + 1) skip) (best, minDiff))).
Proof.
  intros Hskip. induction fuel as [|fuel IH]; intros period best minDiff Hfuel;
    cbn [periodLoop].
  - replace (period <=? maxP) with false by (symmetry; apply Z.leb_gt; lia).
    rewrite strided_nil by lia. reflexivity.
  - destruct (period <=? maxP) eqn:E.
    + apply Z.leb_le in E. rewrite strided_cons by lia. cbn [fold_left].
      rewrite amdfLoop_sum by assumption.
      unfold scanStep at 2; cbn [fst snd].
      destruct ((best =? 0) || d_lt (amdfSum window period skip)
                                    (d_mul minDiff (i2d period)));
        apply IH; lia.
    + apply Z.leb_gt in E. rewrite strided_nil by lia. reflexivity.
Qed.

Lemma findPitchPeriodInRange_fold window minP maxP skip :
  1 <= skip ->
  findPitchPeriodInRange window minP maxP skip
  = Some (fst (fold_left (scanStep window skip) (candidates minP maxP skip)
                 (0, d_lit 0))).
Proof.
  intros; unfold findPitchPeriodInRange, candidates.
  apply periodLoop_fold; [assumption | lia].
Qed.




End PitchSearch.
(* ------------------------------------------------------------------ *)
(** ** The parts of the driver *)

Section DriverParts.
Context {FA : FloatArith} {SH : SonicHeader}.

(** *** Fields a computation leaves alone *)

Section Preserves.
Context {X : Type} (f : sonicStreamStruct -> X).








End Preserves.





(** *** Discarding the input that was processed *)

Lemma removeInputSamples_spec h s position :
  wf_input s -> 0 <= position <= numInputSamples s ->
  exists s',
    removeInputSamples position (h, s) = Some (tt, (h, s')) /\
    wf_input s' /\
    inputQueue s' = drop position (inputQueue s) /\
    numInputSamples s' = numInputSamples s - position /\
    inputBufferSize s' = inputBufferSize s /\
    remainingInputToCopy s' = remainingInputToCopy s /\
    same_config s s' /\ same_output s s'.
Proof.
  intros (b & Hb & Hlen & Hn) Hpos.
  unfold removeInputSamples. rewrite bind_get; cbn [snd].
  unfold inputQueue. rewrite Hb; cbn [queue].
  destruct (numInputSamples s - position >? 0) eqn:E.
  - apply Z.gtb_lt in E.
    run. rewrite offset_defined by lia.
    rewrite memcpy_defined by (rewrite ?Zlen_drop; lia).
    eexists; split; [reflexivity|]. cbn.
    split; [|split; [|repeat split]].
    + eexists; split; [reflexivity|]. cbn.
      rewrite Zlen_app, Zlen_take, Zlen_drop by (rewrite ?Zlen_drop; lia). lia.
    + rewrite take_app_exact by (rewrite Zlen_take; rewrite ?Zlen_drop; lia).
      rewrite drop_take by lia. reflexivity.
  - assert (position = numInputSamples s)
      by (rewrite Z.gtb_ltb in E; apply Z.ltb_ge in E; lia).
    run.
    eexists; split; [reflexivity|]. cbn.
    split; [|split; [|repeat split]].
    + exists b; cbn; repeat split; auto; lia.
    + rewrite Hb; cbn [queue].
      replace (numInputSamples s - position) with 0 by lia.
      rewrite drop_all by (rewrite Zlen_take; lia). reflexivity.
Qed.

(** *** Copying input to the output unchanged *)


(** *** The periods the search can return *)

Lemma scan_keeps_or_picks window skip : forall C st,
  let r := fst (fold_left (scanStep window skip) C st) in
  r = fst st \/ In r C.
Proof.
  induction C as [|c C IH]; intros st; cbn [fold_left].
  - left; reflexivity.
  - destruct (IH (scanStep window skip st c)) as [H | H].
    + cbv zeta. rewrite H. unfold scanStep.
      destruct ((fst st =? 0) || d_lt (amdfSum window c skip)
                                      (d_mul (snd st) (i2d c)));
        cbn [fst]; [right; left; reflexivity | left; reflexivity].
    + right; right; exact H.
Qed.

(** With a stride of 1 at least, [findPitchPeriodInRange] returns: 0 when
    the range is empty, and otherwise one of the candidates. *)
Lemma findPitchPeriodInRange_in_range window minP maxP skip :
  1 <= skip ->
  exists best,
    findPitchPeriodInRange window minP maxP skip = Some best /\
    if maxP <? minP then best = 0
    else minP <= best <= maxP /\ (best - minP) mod skip = 0.
Proof.
  intros Hskip. rewrite findPitchPeriodInRange_fold by assumption.
  eexists; split; [reflexivity|].
  destruct (maxP <? minP) eqn:E.
  - apply Z.ltb_lt in E. unfold candidates. rewrite strided_nil by lia.
    reflexivity.
  - apply Z.ltb_ge in E. apply In_candidates; [assumption|].
    unfold candidates. rewrite strided_cons by lia. cbn [fold_left].
    unfold scanStep at 2; cbn [fst snd Z.eqb orb].
    destruct (scan_keeps_or_picks window skip
                (strided (minP + skip) (maxP + 1) skip)
                (minP, d_div (amdfSum window minP skip) (i2d minP))) as [H | H].
    + rewrite H. left; reflexivity.
    + right; exact H.
Qed.

(** The stride of the first search of [findPitchPeriod]. *)
Lemma downsampling_stride rate :
  0 < SONIC_AMDF_FREQ ->
  1 <= (if rate >? SONIC_AMDF_FREQ then Z.quot rate SONIC_AMDF_FREQ else 1).
Proof.
  intros Hfreq. destruct (rate >? SONIC_AMDF_FREQ) eqn:E; [|lia].
  apply Z.gtb_lt in E. rewrite Z.quot_div_nonneg by lia.
  apply Z.div_le_lower_bound; lia.
Qed.

(** When [SONIC_AMDF_FREQ] is positive, [findPitchPeriod] returns a period
    between [minPeriod] and [maxPeriod] of the stream, or 0; it is 0 only
    when the second search has an empty range. *)
Lemma findPitchPeriod_in_range s window :
  0 < SONIC_AMDF_FREQ ->
  exists period,
    findPitchPeriod s window = Some period /\
    (minPeriod s <= period <= maxPeriod s \/
     period = 0 /\
     exists coarse,
       findPitchPeriodInRange window (minPeriod s) (maxPeriod s)
         (if sampleRate s >? SONIC_AMDF_FREQ
          then Z.quot (sampleRate s) SONIC_AMDF_FREQ else 1) = Some coarse /\
       Z.min (d2i (d_mul (i2d coarse) (d_add (d_lit 1) SONIC_AMDF_RANGE)))
             (maxPeriod s)
       < Z.max (d2i (d_mul (i2d coarse) (d_sub (d_lit 1) SONIC_AMDF_RANGE)))
               (minPeriod s)).
Proof.
  intros Hfreq. unfold findPitchPeriod.
  destruct (findPitchPeriodInRange_in_range window (minPeriod s) (maxPeriod s) _
              (downsampling_stride (sampleRate s) Hfreq))
    as (coarse & Hcoarse & _).
  rewrite Hcoarse.
  set (lo := d2i (d_mul (i2d coarse) (d_sub (d_lit 1) SONIC_AMDF_RANGE))).
  set (hi := d2i (d_mul (i2d coarse) (d_add (d_lit 1) SONIC_AMDF_RANGE))).
  assert (Hlo : (if lo <? minPeriod s then minPeriod s else lo)
                = Z.max lo (minPeriod s)).
  { destruct (lo <? minPeriod s) eqn:E;
      [apply Z.ltb_lt in E | apply Z.ltb_ge in E]; lia. }
  assert (Hhi : (if hi >? maxPeriod s then maxPeriod s else hi)
                = Z.min hi (maxPeriod s)).
  { destruct (hi >? maxPeriod s) eqn:E;
      [apply Z.gtb_lt in E | rewrite Z.gtb_ltb in E; apply Z.ltb_ge in E]; lia. }
  rewrite Hlo, Hhi.
  destruct (findPitchPeriodInRange_in_range window (Z.max lo (minPeriod s))
              (Z.min hi (maxPeriod s)) 1 ltac:(lia)) as (period & Hrun & Hcase).
  exists period; split; [assumption|].
  destruct (Z.min hi (maxPeriod s) <? Z.max lo (minPeriod s)) eqn:E.
  - apply Z.ltb_lt in E. right. split; [assumption|].
    exists coarse; split; [reflexivity | assumption].
  - left. lia.
Qed.

(** *** One turn of the driver loop *)

Lemma counts_in_range_inv s spd p :
  counts_in_range s spd = true ->
  p = 0 \/ minPeriod s <= p <= maxPeriod s ->
  let n := if d_lt (d_lit 1) spd then skipCount spd p else insertCount spd p in
  0 <= n <= p.
Proof.
  intros H Hp n. unfold counts_in_range in H.
  rewrite forallb_forall in H.
  assert (Hin : In p (0 :: candidates (minPeriod s) (maxPeriod s) 1)).
  { destruct Hp as [-> | Hp]; [left; reflexivity | right].
    apply In_candidates; [lia|]. split; [assumption | apply Z.mod_1_r]. }
  specialize (H p Hin). unfold count_in_range in H. fold n in H.
  apply andb_true_iff in H as [H1 H2].
  apply Z.leb_le in H1, H2. lia.
Qed.





(** *** The driver loop *)



End DriverParts.
(* ------------------------------------------------------------------ *)
(** ** The driver: writes and flushes on a stream in order *)

Section Driver.
Context {FA : FloatArith} {SH : SonicHeader}.

(** [addSamplesToInputBuffer] with what it leaves alone. *)
Lemma addSamplesToInputBuffer_spec h s samples n :
  wf_input s -> 0 <= n <= Zlen samples ->
  exists r h' s',
    addSamplesToInputBuffer samples n (h, s) = Some (r, (h', s')) /\
    same_config s s' /\ same_output s s' /\
    remainingInputToCopy s' = remainingInputToCopy s /\
    ((r = 1 /\ wf_input s' /\
      inputQueue s' = inputQueue s ++ take n samples /\
      numInputSamples s' = numInputSamples s + n /\
      inputBufferSize s <= inputBufferSize s' /\
      (numInputSamples s + n <= inputBufferSize s ->
       h' = h /\ inputBufferSize s' = inputBufferSize s))
     \/
     (r = 0 /\ inputBuffer s' = None /\ hd true h = false /\
      inputBufferSize s < numInputSamples s + n)).
Proof.
  intros (b & Hb & Hlen & Hnum) Hn.
  unfold addSamplesToInputBuffer.
  destruct (n =? 0) eqn:En.
  - apply Z.eqb_eq in En; subst n. unfold ret.
    exists 1, h, s; split; [reflexivity|]. repeat split. left.
    unfold inputQueue; rewrite Hb; cbn. rewrite app_nil_r.
    repeat split; try lia. exists b; auto.
  - apply Z.eqb_neq in En. unfold bind at 1.
    destruct (Z.le_gt_cases (numInputSamples s + n) (inputBufferSize s)) as [Hfit|Hbig].
    + rewrite enlargeInput_fits by assumption. cbn [Z.eqb]. run.
      rewrite Hb, memcpy_defined by lia.
      do 3 eexists; split; [reflexivity|]. repeat split. left.
      unfold inputQueue; rewrite Hb; cbn.
      split; [reflexivity|].
      split; [|split; [|split; [reflexivity | split; [lia | split; reflexivity]]]].
      * eexists; cbn; split; [reflexivity|].
        rewrite !Zlen_app, !Zlen_take, Zlen_drop by lia. lia.
      * rewrite app_assoc, take_app_exact
          by (rewrite Zlen_app, !Zlen_take; lia).
        reflexivity.
    + rewrite enlargeInput_grows by lia.
      pose proof (shiftr1_nonneg (inputBufferSize s) ltac:(lia)) as Hsh.
      unfold realloc, grant; rewrite Hb; cbn [fst].
      replace (0 <=? inputBufferSize s + (Z.shiftr (inputBufferSize s) 1 + n))
        with true by (symmetry; apply Z.leb_le; lia).
      rewrite andb_true_r.
      destruct (hd true h) eqn:Hhd.
      * cbn [Z.eqb]. run. cbn -[Z.shiftr].
        rewrite (take_all _ b) by lia.
        rewrite memcpy_defined
          by (rewrite ?Zlen_app, ?Zlen_repeat; lia).
        do 3 eexists; split; [reflexivity|]. repeat split. left.
        unfold inputQueue; rewrite Hb; cbn -[Z.shiftr].
        split; [reflexivity|].
        split; [|split; [|split; [reflexivity | split; intros; lia]]].
        -- eexists; cbn -[Z.shiftr]; split; [reflexivity|].
           rewrite !Zlen_app, !Zlen_take, Zlen_drop
             by (rewrite ?Zlen_app, ?Zlen_repeat; lia).
           rewrite Zlen_app, Zlen_repeat. lia.
        -- rewrite app_assoc, take_app_exact
             by (rewrite Zlen_app, !Zlen_take;
                 rewrite ?Zlen_app, ?Zlen_repeat; lia).
           rewrite take_app_le by lia. reflexivity.
      * cbn [Z.eqb]. run.
        do 3 eexists; split; [reflexivity|]. repeat split. right.
        cbn -[Z.shiftr]. repeat split. lia.
Qed.

Lemma wf_output_transport s s' :
  wf_output s -> same_output s s' -> wf_output s' /\ outputQueue s' = outputQueue s.
Proof.
  intros (b & Hb & Hlen & Hn) (H1 & H2 & H3). split.
  - exists b. rewrite H1, H2, H3. auto.
  - unfold outputQueue. now rewrite H1, H3.
Qed.




End Driver.
(* ------------------------------------------------------------------ *)
(** ** A client of the stream *)

Section Client.
Context {FA : FloatArith} {SH : SonicHeader}.


(** A stream just created is in order, with nothing queued. *)
Lemma sonicCreateStream_ok spd rate h s h' :
  0 < SONIC_MIN_PITCH <= SONIC_MAX_PITCH -> 0 <= rate ->
  sonicCreateStream spd rate h = (Some s, h') ->
  stream_ok s /\ inputQueue s = [] /\ outputQueue s = [] /\
  numInputSamples s = 0 /\ numOutputSamples s = 0 /\
  remainingInputToCopy s = 0 /\
  speed s = spd /\ sampleRate s = rate /\
  minPeriod s = Z.quot rate SONIC_MAX_PITCH /\
  maxPeriod s = Z.quot rate SONIC_MIN_PITCH /\
  maxRequired s = 2 * Z.quot rate SONIC_MIN_PITCH.
Proof.
  intros Hpitch Hrate Hnew.
  destruct (sonicCreateStream_wf _ _ _ _ _ Hnew)
    as (Hwo & Hwi & Hoq & Hiq & Hni & Hno & Hspd).
  apply sonicCreateStream_inv in Hnew as (Hmr & -> & _).
  assert (0 <= Z.quot rate SONIC_MAX_PITCH) by (apply Z.quot_pos; lia).
  pose proof (Z.quot_le_compat_l rate SONIC_MIN_PITCH SONIC_MAX_PITCH Hrate Hpitch).
  split.
  { split; [assumption|]. split; [assumption|]. cbn -[Z.mul]. lia. }
  cbn -[Z.mul] in *. repeat split; assumption || reflexivity.
Qed.

(** *** One call on a stream that is ready *)





(** *** Sequences of calls *)


End Client.
(* ------------------------------------------------------------------ *)
(** ** The samples that are read

    [load] gives a value for every index; the statements here are about
    the indices that are used.  Two windows that agree on their first cells
    are told apart by a function only if it reads beyond them. *)

Section Reads.
Context {FA : FloatArith} {SH : SonicHeader}.

Lemma load_agree n (w w' : list float) i :
  take n w = take n w' -> 0 <= i < n -> load f_zero w i = load f_zero w' i.
Proof.
  intros Heq Hi. unfold load.
  assert (H : forall l : list float,
             nth (Z.to_nat i) l f_zero = nth (Z.to_nat i) (take n l) f_zero).
  { intros l. unfold take. rewrite nth_firstn.
    replace (Z.to_nat i <? Z.to_nat n)%nat with true; [reflexivity|].
    symmetry; apply Nat.ltb_lt; lia. }
  rewrite (H w), (H w'), Heq. reflexivity.
Qed.

Lemma take_agree_le m n (w w' : list float) :
  m <= n -> take n w = take n w' -> take m w = take m w'.
Proof.
  intros Hle Heq. destruct (Z_le_gt_dec m 0).
  - rewrite !take_nonpos by lia. reflexivity.
  - assert (H : forall l : list float, take m l = take m (take n l)).
    { intros l. rewrite take_take by lia. rewrite Z.min_l by lia. reflexivity. }
    rewrite (H w), (H w'), Heq. reflexivity.
Qed.

Lemma fold_left_agree {A B} (f g : A -> B -> A) l : forall a,
  (forall a b, In b l -> f a b = g a b) -> fold_left f l a = fold_left g l a.
Proof.
  induction l as [|b l IH]; intros a H; cbn [fold_left]; [reflexivity|].
  rewrite (H a b) by (left; reflexivity).
  apply IH. intros a' b' Hin. apply H. right; assumption.
Qed.

(** *** The pitch search *)

Lemma absDiff_agree n w w' p i :
  take n w = take n w' -> 0 <= i -> 0 <= p -> i + p < n ->
  absDiff w p i = absDiff w' p i.
Proof.
  intros Heq Hi Hp Hn. unfold absDiff.
  rewrite (load_agree n w w' i), (load_agree n w w' (i + p)) by (assumption || lia).
  reflexivity.
Qed.

Lemma amdfSum_agree n w w' p skip :
  1 <= skip -> take n w = take n w' -> 2 * p <= n ->
  amdfSum w p skip = amdfSum w' p skip.
Proof.
  intros Hskip Heq Hn. unfold amdfSum. apply fold_left_agree.
  intros acc i Hi. apply In_strided in Hi; [|assumption].
  f_equal. apply absDiff_agree with n; (assumption || lia).
Qed.

Lemma findPitchPeriodInRange_agree w w' minP maxP skip :
  1 <= skip -> take (2 * maxP) w = take (2 * maxP) w' ->
  findPitchPeriodInRange w minP maxP skip = findPitchPeriodInRange w' minP maxP skip.
Proof.
  intros Hskip Heq. rewrite !findPitchPeriodInRange_fold by assumption.
  do 2 f_equal. apply fold_left_agree.
  intros st p Hp. apply In_candidates in Hp; [|assumption].
  unfold scanStep. rewrite (amdfSum_agree (2 * maxP) w w') by (assumption || lia).
  reflexivity.
Qed.

Lemma findPitchPeriod_agree s w w' :
  0 < SONIC_AMDF_FREQ ->
  take (2 * maxPeriod s) w = take (2 * maxPeriod s) w' ->
  findPitchPeriod s w = findPitchPeriod s w'.
Proof.
  intros Hfreq Heq. unfold findPitchPeriod.
  pose proof (downsampling_stride (sampleRate s) Hfreq) as Hskip.
  rewrite (findPitchPeriodInRange_agree w w') by assumption.
  destruct (findPitchPeriodInRange w' (minPeriod s) (maxPeriod s) _) as [coarse|];
    [|reflexivity].
  cbv zeta. apply findPitchPeriodInRange_agree; [lia|].
  apply take_agree_le with (2 * maxPeriod s); [|assumption].
  match goal with
  | |- context [?x >? maxPeriod s] =>
      destruct (x >? maxPeriod s) eqn:E;
        [lia | rewrite Z.gtb_ltb in E; apply Z.ltb_ge in E; lia]
  end.
Qed.

(** *** The two cross-fades *)

Lemma bind_agree {T U} (m : M T) (k k' : T -> M U) w :
  (forall x w', m w = Some (x, w') -> k x w' = k' x w') ->
  bind m k w = bind m k' w.
Proof.
  intros H. unfold bind. destruct (m w) as [[x w']|]; [apply H|]; reflexivity.
Qed.

Lemma storeLoop_agree f g n outPos :
  (forall t, 0 <= t < n -> f t = g t) ->
  forall fuel t buf, 0 <= t ->
    storeLoop fuel f n outPos t buf = storeLoop fuel g n outPos t buf.
Proof.
  intros H. induction fuel as [|fuel IH]; intros t buf Ht; cbn [storeLoop];
    [reflexivity|].
  destruct (t <? n) eqn:E; [|reflexivity].
  apply Z.ltb_lt in E. rewrite (H t) by lia.
  destruct (store buf (outPos + t) (g t)); [apply IH; lia | reflexivity].
Qed.

Lemma skipPitchPeriod_agree w w' spd period world :
  take (2 * period) w = take (2 * period) w' ->
  skipCount spd period <= period ->
  skipPitchPeriod w spd period world = skipPitchPeriod w' spd period world.
Proof.
  intros Heq Hcount. unfold skipPitchPeriod.
  apply bind_agree. intros n w1 Hn.
  assert (Hle : n <= period).
  { revert Hn Hcount. unfold skipCount.
    destruct (d_le (d_lit 2) spd).
    - unfold ret. intros H; inversion H; subst. tauto.
    - destruct (d_lt (d_lit 1) spd); [|discriminate].
      run. intros H; inversion H; subst. lia. }
  apply bind_agree. intros ok w2 _.
  destruct (ok =? 0); [reflexivity|].
  apply bind_agree. intros stream w3 _.
  apply bind_agree. intros buf w4 _.
  rewrite !skipLoop_storeLoop by reflexivity.
  rewrite (storeLoop_agree (skipCrossfade w period n) (skipCrossfade w' period n));
    [reflexivity | | lia].
  intros t Ht. unfold skipCrossfade.
  rewrite (load_agree (2 * period) w w' t),
          (load_agree (2 * period) w w' (t + period)) by (assumption || lia).
  reflexivity.
Qed.

Lemma insertPitchPeriod_agree w w' spd period world :
  take (2 * period) w = take (2 * period) w' ->
  0 <= period -> period <= Zlen w -> period <= Zlen w' ->
  insertCount spd period <= period ->
  insertPitchPeriod w spd period world = insertPitchPeriod w' spd period world.
Proof.
  intros Heq Hpos Hlen Hlen' Hcount. unfold insertPitchPeriod.
  apply bind_agree. intros n w1 Hn.
  assert (Hle : n <= period).
  { revert Hn Hcount. unfold insertCount.
    destruct (d_lt spd (d_lit (1 # 2))).
    - unfold ret. intros H; inversion H; subst. tauto.
    - run. intros H; inversion H; subst. lia. }
  apply bind_agree. intros ok w2 _.
  destruct (ok =? 0); [reflexivity|].
  apply bind_agree. intros stream w3 _.
  apply bind_agree. intros buf w4 _.
  assert (Hcopy : memcpy buf (numOutputSamples stream) w period
                  = memcpy buf (numOutputSamples stream) w' period).
  { unfold memcpy.
    replace (period <=? Zlen w) with true by (symmetry; apply Z.leb_le; lia).
    replace (period <=? Zlen w') with true by (symmetry; apply Z.leb_le; lia).
    rewrite (take_agree_le period (2 * period) w w') by (assumption || lia).
    reflexivity. }
  rewrite Hcopy.
  apply bind_agree. intros buf1 w5 _.
  rewrite !insertLoop_storeLoop by reflexivity.
  rewrite (storeLoop_agree (insertCrossfade w period n)
             (insertCrossfade w' period n));
    [reflexivity | | lia].
  intros t Ht. unfold insertCrossfade.
  rewrite (load_agree (2 * period) w w' t),
          (load_agree (2 * period) w w' (t + period)) by (assumption || lia).
  reflexivity.
Qed.

End Reads.
(* ------------------------------------------------------------------ *)
(** ** Further properties of the code

    The parts of the stream the statements above pass through without
    describing them: the growth of the output buffer, the two helpers of the
    driver loop, the count of samples available, the pitch search as the
    driver uses it, and the driver itself outside the identity window. *)

Section Further.
Context {FA : FloatArith} {SH : SonicHeader}.

(** X1.  [sonicCreateStream] asks for three allocations, the stream and its
    two buffers, and returns a stream exactly when the three are granted
    (the sample rate being non-negative and the pitch bounds of the header
    positive and ordered).  The stream is then in order: both buffers hold
    [2*maxPeriod] cells, both queues are empty, nothing is left to copy,
    and [0 <= minPeriod <= maxPeriod].  When a request is refused the
    function returns NULL and asks for nothing more. *)
Theorem sonicCreateStream_outcome spd rate h :
  0 < SONIC_MIN_PITCH <= SONIC_MAX_PITCH -> 0 <= rate ->
  match sonicCreateStream spd rate h with
  | (Some s, h') =>
      hd true h = true /\ hd true (tl h) = true /\ hd true (tl (tl h)) = true /\
      h' = tl (tl (tl h)) /\
      stream_ok s /\ inputQueue s = [] /\ outputQueue s = [] /\
      remainingInputToCopy s = 0 /\
      inputBufferSize s = 2 * maxPeriod s /\ outputBufferSize s = 2 * maxPeriod s /\
      speed s = spd /\ sampleRate s = rate
  | (None, h') =>
      (hd true h = false /\ h' = tl h) \/
      (hd true h = true /\ hd true (tl h) = false /\ h' = tl (tl h)) \/
      (hd true h = true /\ hd true (tl h) = true /\
       hd true (tl (tl h)) = false /\ h' = tl (tl (tl h)))
  end.
Proof.
  intros Hpitch Hrate.
  destruct (sonicCreateStream spd rate h) as [[s|] h'] eqn:Hnew.
  - destruct (sonicCreateStream_ok _ _ _ _ _ Hpitch Hrate Hnew)
      as (Hok & Hiq & Hoq & _ & _ & Hrem & Hspd & Hrt & _ & Hmax & _).
    pose proof (sonicCreateStream_inv _ _ _ _ _ Hnew) as (_ & Hs & Hh).
    assert (Hsizes : inputBufferSize s = 2 * maxPeriod s /\
                     outputBufferSize s = 2 * maxPeriod s)
      by (rewrite Hs; cbn -[Z.mul]; split; reflexivity).
    destruct Hsizes as (Hsi & Hso).
    revert Hnew. unfold sonicCreateStream, calloc, grant; cbn -[Z.mul].
    destruct (hd true h); cbn -[Z.mul]; [|discriminate].
    destruct (hd true (tl h)); cbn -[Z.mul]; [|discriminate].
    destruct (0 <=? 2 * Z.quot rate SONIC_MIN_PITCH); cbn -[Z.mul]; [|discriminate].
    destruct (hd true (tl (tl h))); cbn -[Z.mul]; [|discriminate].
    intros _. do 3 (split; [reflexivity|]).
    split; [exact Hh|]. split; [exact Hok|]. repeat split; assumption.
  - assert (Hsize : (0 <=? 2 * Z.quot rate SONIC_MIN_PITCH) = true).
    { apply Z.leb_le.
      assert (0 <= Z.quot rate SONIC_MIN_PITCH) by (apply Z.quot_pos; lia). lia. }
    revert Hnew. unfold sonicCreateStream, calloc, grant; cbn -[Z.mul].
    rewrite Hsize.
    destruct (hd true h); cbn -[Z.mul];
      [|intros H; inversion H; left; split; reflexivity].
    destruct (hd true (tl h)); cbn -[Z.mul];
      [|intros H; inversion H; right; left; repeat split; reflexivity].
    destruct (hd true (tl (tl h))); cbn -[Z.mul]; [discriminate|].
    intros H; inversion H; right; right; repeat split; reflexivity.
Qed.


(** X3.  [removeInputSamples] on a stream whose input side is in order, for
    a position within the queued samples: it removes that many samples from
    the front of the input queue, keeps the others in order, and touches
    neither the buffer size, nor the output side, nor the
    configuration. *)
Theorem removeInputSamples_contract h s position :
  wf_input s -> 0 <= position <= numInputSamples s ->
  exists s',
    removeInputSamples position (h, s) = Some (tt, (h, s')) /\
    wf_input s' /\
    inputQueue s' = drop position (inputQueue s) /\
    numInputSamples s' = numInputSamples s - position /\
    inputBufferSize s' = inputBufferSize s /\
    remainingInputToCopy s' = remainingInputToCopy s /\
    same_config s s' /\ same_output s s'.
Proof. exact (removeInputSamples_spec h s position). Qed.


(** X5.  [sonicSamplesAvailale] gives the length of the output queue and
    changes nothing.  A read of at most [k] samples returns the smaller of
    that count and [k], with as many samples, and the count available
    afterwards is smaller by what the read returned: it is 0 once a read
    has asked for all of them. *)
Theorem sonicSamplesAvailale_counts_reads h s k :
  wf_output s -> 0 <= k ->
  exists available out s',
    sonicSamplesAvailale (h, s) = Some (available, (h, s)) /\
    available = Zlen (outputQueue s) /\
    sonicReadFromStream k (h, s) = Some ((Z.min available k, out), (h, s')) /\
    Zlen out = Z.min available k /\
    sonicSamplesAvailale (h, s') = Some (available - Zlen out, (h, s')) /\
    (available <= k -> sonicSamplesAvailale (h, s') = Some (0, (h, s'))).
Proof.
  intros Hwf Hk.
  destruct (sonicReadFromStream_spec h s k Hwf Hk)
    as (s' & Hrun & Hwf' & Hq & Hnum & _).
  pose proof (Zlen_outputQueue s Hwf) as Hlen.
  exists (numOutputSamples s), (take k (outputQueue s)), s'.
  split; [reflexivity|]. split; [congruence|]. split; [assumption|].
  assert (Hout : Zlen (take k (outputQueue s)) = Z.min (numOutputSamples s) k).
  { destruct (Z_le_gt_dec k (numOutputSamples s)).
    - rewrite Zlen_take, Z.min_r by lia. reflexivity.
    - rewrite take_all, Z.min_l by lia. assumption. }
  split; [assumption|].
  unfold sonicSamplesAvailale; run. rewrite Hnum, Hout.
  split; [reflexivity|].
  intros Hall. rewrite Z.min_l by assumption. do 3 f_equal. lia.
Qed.

(** X6.  Whatever the arithmetic and the samples, [findPitchPeriodInRange]
    on a window of [2*maxP] samples returns: 0 when the range is empty, and
    otherwise a period of the range, [minP] plus a multiple of the
    stride. *)
Theorem findPitchPeriodInRange_result_in_range window minP maxP skip :
  1 <= skip -> 2 * maxP <= Zlen window ->
  exists best,
    findPitchPeriodInRange window minP maxP skip = Some best /\
    if maxP <? minP then best = 0
    else minP <= best <= maxP /\ (best - minP) mod skip = 0.
Proof.
  intros Hskip _. apply findPitchPeriodInRange_in_range; assumption.
Qed.

(** X7.  With a positive [SONIC_AMDF_FREQ], [findPitchPeriod] on a window
    of [maxRequired] samples returns a period between [minPeriod] and
    [maxPeriod], or 0; and 0 only when the bounds of the second search,
    taken around the period [coarse] of the first, are out of order. *)
Theorem findPitchPeriod_result_in_bounds s window :
  0 < SONIC_AMDF_FREQ -> 2 * maxPeriod s <= Zlen window ->
  exists period,
    findPitchPeriod s window = Some period /\
    (minPeriod s <= period <= maxPeriod s \/
     period = 0 /\
     exists coarse,
       findPitchPeriodInRange window (minPeriod s) (maxPeriod s)
         (if sampleRate s >? SONIC_AMDF_FREQ
          then Z.quot (sampleRate s) SONIC_AMDF_FREQ else 1) = Some coarse /\
       Z.min (d2i (d_mul (i2d coarse) (d_add (d_lit 1) SONIC_AMDF_RANGE)))
             (maxPeriod s)
       < Z.max (d2i (d_mul (i2d coarse) (d_sub (d_lit 1) SONIC_AMDF_RANGE)))
               (minPeriod s)).
Proof.
  intros Hfreq _. apply findPitchPeriod_in_range; assumption.
Qed.

(** X8.  Outside the identity window, a write that leaves less than a
    window ([maxRequired] samples) in the input queue of a stream in order
    returns 1 whatever the allocator answers: it asks for no memory, appends
    the samples to the input queue and produces no output. *)
Theorem sonicWriteToStream_below_window h s samples n :
  stream_ok s -> in_identity_window (speed s) = false ->
  0 <= n <= Zlen samples ->
  numInputSamples s + n < maxRequired s ->
  exists s',
    sonicWriteToStream samples n (h, s) = Some (1, (h, s')) /\
    same_config s s' /\ same_output s s' /\
    remainingInputToCopy s' = remainingInputToCopy s /\
    stream_ok s' /\
    inputBufferSize s' = inputBufferSize s /\
    inputQueue s' = inputQueue s ++ take n samples /\
    numInputSamples s' = numInputSamples s + n.
Proof.
  intros (Hwi & Hwo & Hper & Hreq & Hroom) Hid Hn Hshort.
  rewrite sonicWriteToStream_queues by assumption.
  destruct (addSamplesToInputBuffer_spec h s samples n Hwi Hn)
    as (r & h1 & s1 & Hadd & Hcfg & Hout & Hrem & Hcase).
  rewrite Hadd.
  destruct Hcase as [(-> & Hwi1 & Hq1 & Hn1 & Hsz1 & Hh) | (-> & _ & _ & Hbig)];
    [|lia].
  destruct (Hh ltac:(lia)) as (-> & Hsame). cbn [Z.eqb].
  replace (numInputSamples s1 <? maxRequired s) with true
    by (symmetry; apply Z.ltb_lt; lia).
  exists s1. split; [reflexivity|].
  destruct (wf_output_transport s s1 Hwo Hout) as (Hwo1 & _).
  pose proof Hcfg as (Hc1 & Hc2 & Hc3 & Hc4 & Hc5).
  repeat (split; [assumption|]).
  split; [repeat split; try assumption; lia|].
  repeat split; assumption.
Qed.




(** X12.  Why the client must stop: in the identity window, when a write of
    at least one sample returns 0, the allocator has refused to enlarge the
    output buffer, and the stream is left with a null output buffer while
    it still counts the samples that were queued.  If there were any, the
    next read, whatever it asks for, copies from the null buffer: its
    behaviour is undefined. *)
Theorem read_after_failed_write_is_undefined h s samples n h' s' k :
  wf_output s -> in_identity_window (speed s) = true ->
  0 < n <= Zlen samples ->
  sonicWriteToStream samples n (h, s) = Some (0, (h', s')) ->
  hd true h = false /\ outputBuffer s' = None /\
  numOutputSamples s' = numOutputSamples s /\
  (0 < numOutputSamples s -> sonicReadFromStream k (h', s') = None).
Proof.
  intros Hwf Hid Hn Hrun.
  rewrite sonicWriteToStream_identity in Hrun by assumption.
  destruct (enlargeOutput_spec h s n Hwf ltac:(lia))
    as (r & h1 & s1 & Hen & _ & _ & Hnum & Hcase).
  unfold copyToOutput, bind at 1 in Hrun. rewrite Hen in Hrun.
  destruct Hcase as [(-> & Hwf1 & _ & Hroom & _) | (-> & Hnull & Hhd & _)].
  - exfalso. cbn [Z.eqb] in Hrun. revert Hrun. run.
    destruct Hwf1 as (b & Hb & Hlen & Hnum1). rewrite Hb.
    rewrite memcpy_defined by lia.
    intros H; inversion H; lia.
  - cbn [Z.eqb] in Hrun. unfold ret in Hrun. inversion Hrun; subst h1 s1.
    repeat (split; [assumption|]). intros Hqueued.
    unfold sonicReadFromStream. run. rewrite Hnum.
    replace (numOutputSamples s =? 0) with false
      by (symmetry; apply Z.eqb_neq; lia).
    rewrite Hnull. reflexivity.
Qed.

(** X13.  The pitch search reads the first [2*maxPeriod] samples of its
    window and no other: on two windows that agree on these samples,
    [findPitchPeriod] gives the same period, and so does
    [findPitchPeriodInRange] for every range that ends at [maxPeriod] at
    most. *)
Theorem pitch_search_reads_the_window_only s w w' :
  0 < SONIC_AMDF_FREQ ->
  take (2 * maxPeriod s) w = take (2 * maxPeriod s) w' ->
  findPitchPeriod s w = findPitchPeriod s w' /\
  forall minP maxP skip,
    1 <= skip -> maxP <= maxPeriod s ->
    findPitchPeriodInRange w minP maxP skip
    = findPitchPeriodInRange w' minP maxP skip.
Proof.
  intros Hfreq Heq. split; [apply findPitchPeriod_agree; assumption|].
  intros minP maxP skip Hskip Hmax.
  apply findPitchPeriodInRange_agree; [assumption|].
  apply take_agree_le with (2 * maxPeriod s); [lia | assumption].
Qed.

(** X14.  A turn of the driver loop that analyses a period reads the
    [maxRequired] samples of the input from its position on, and no other:
    on two arrays that hold these samples, the turn gives the same result,
    new position and stream (the counts of new samples being in range for
    the periods of the stream). *)
Theorem writeStep_reads_the_window_only h s spd samples samples' position :
  0 < SONIC_AMDF_FREQ ->
  counts_in_range s spd = true ->
  0 <= minPeriod s <= maxPeriod s -> maxRequired s = 2 * maxPeriod s ->
  0 <= position ->
  position + maxRequired s <= Zlen samples ->
  position + maxRequired s <= Zlen samples' ->
  take (maxRequired s) (drop position samples)
  = take (maxRequired s) (drop position samples') ->
  remainingInputToCopy s <= 0 ->
  writeStep spd samples position (h, s) = writeStep spd samples' position (h, s).
Proof.
  intros Hfreq Hcounts Hper Hreq Hpos Hlen Hlen' Heq Hrem.
  set (w := drop position samples) in *. set (w' := drop position samples') in *.
  assert (Hoff : offset samples position = Some w)
    by (apply offset_defined; lia).
  assert (Hoff' : offset samples' position = Some w')
    by (apply offset_defined; lia).
  assert (Hw : Zlen w = Zlen samples - position)
    by (apply Zlen_drop; lia).
  assert (Hw' : Zlen w' = Zlen samples' - position)
    by (apply Zlen_drop; lia).
  rewrite Hreq in Heq.
  destruct (findPitchPeriod_in_range s w Hfreq) as (period & Hfind & Hrange).
  assert (Hfind' : findPitchPeriod s w' = Some period)
    by (rewrite <- (findPitchPeriod_agree s w w') by assumption; assumption).
  assert (Hp : period = 0 \/ minPeriod s <= period <= maxPeriod s)
    by (destruct Hrange as [H | (H & _)]; auto).
  pose proof (counts_in_range_inv s spd period Hcounts Hp) as Hn.
  cbv zeta in Hn.
  assert (Hwin : take (2 * period) w = take (2 * period) w')
    by (apply take_agree_le with (2 * maxPeriod s); [lia | assumption]).
  rewrite (writeStep_analyse h s spd samples position w period Hrem Hoff Hfind).
  rewrite (writeStep_analyse h s spd samples' position w' period Hrem Hoff' Hfind').
  destruct (d_lt (d_lit 1) spd).
  - rewrite (skipPitchPeriod_agree w w') by (assumption || lia). reflexivity.
  - rewrite (insertPitchPeriod_agree w w') by (assumption || lia). reflexivity.
Qed.

End Further.
(* ------------------------------------------------------------------ *)
(** ** Concrete runs

    IEEE arithmetic, the constants of [sonic_h], an allocator that grants
    every request unless said otherwise. *)

(** [0 <= n <= Zlen l] on concrete data. *)
Ltac in_bounds :=
  split; [lia | apply Z.leb_le; vm_compute; reflexivity].

(** Gives an existential statement [exists a b, e = Some (a, b) /\ _] its
    witnesses, by evaluation of [e].  (The equation itself is left to the
    kernel's conversion: its type has the arithmetic as a parameter, which
    [vm_compute] would normalise.) *)
Ltac exists_result :=
  lazymatch goal with
  | |- exists a b, ?e = Some (a, b) /\ _ =>
      let v := eval vm_compute in e in
      lazymatch v with
      | Some (?x, ?y) => exists x, y; split; [reflexivity|]
      end
  | |- exists w, ?e = Some (?r, w) /\ _ =>
      let v := eval vm_compute in e in
      lazymatch v with
      | Some (_, ?y) => exists y; split; [reflexivity|]
      end
  | |- exists out w, ?e = Some ((?r, out), w) /\ _ =>
      let v := eval vm_compute in e in
      lazymatch v with
      | Some ((_, ?x), ?y) => exists x, y; split; [reflexivity|]
      end
  end.

(** An order between integers, or an equation between integers, booleans
    or samples, by evaluation. *)
Ltac by_evaluation :=
  lazymatch goal with
  | |- Z.le _ _ => apply Z.leb_le; vm_compute; reflexivity
  | |- Z.lt _ _ => apply Z.ltb_lt; vm_compute; reflexivity
  | |- _ => vm_compute; reflexivity
  end.

(** [wf_output] and [wf_input] on a concrete stream. *)
Ltac concrete_wf :=
  eexists; split; [reflexivity|]; split; [vm_compute; reflexivity|];
  split; apply Z.leb_le; vm_compute; reflexivity.


(** C8 at work: the queue [1, 2, 3, 4, 5] read by 2 and then by 4, and by 6
    at once. *)
Lemma read_in_chunks_witness :
  exists h s,
    world_after (i2d 1) 800 [Write (ramp 5) 5] = Some (h, s) /\
    exists s1 s2 s12,
      sonicReadFromStream 2 (h, s)
      = Some ((Z.min (numOutputSamples s) 2, take 2 (outputQueue s)), (h, s1)) /\
      sonicReadFromStream 4 (h, s1)
      = Some ((Z.min (numOutputSamples s1) 4, take 4 (outputQueue s1)), (h, s2)) /\
      sonicReadFromStream (2 + 4) (h, s)
      = Some ((Z.min (numOutputSamples s) (2 + 4), take (2 + 4) (outputQueue s)),
              (h, s12)) /\
      take 2 (outputQueue s) ++ take 4 (outputQueue s1) = take (2 + 4) (outputQueue s) /\
      Z.min (numOutputSamples s) 2 + Z.min (numOutputSamples s1) 4
      = Z.min (numOutputSamples s) (2 + 4) /\
      Zlen (take 2 (outputQueue s)) = Z.min (numOutputSamples s) 2 /\
      outputQueue s1 = drop 2 (outputQueue s) /\
      outputQueue s2 = outputQueue s12 /\
      numOutputSamples s2 = numOutputSamples s12.
Proof.
  exists_result.
  apply read_in_chunks; [concrete_wf | lia | lia].
Defined.

(** C10: the claim fails for a stream created at 1 Hz with speed 2.0, whose
    [maxRequired] is 0: a write of no sample runs the driver loop, which
    finds the period 0 and no new sample, and returns 0. *)
Lemma zero_sample_write_counterexample :
  exists s h0,
    sonicCreateStream (i2d 2) 1 [] = (Some s, h0) /\
    in_identity_window (speed s) = false /\
    sonicWriteToStream [] 0 (h0, s) = Some (0, (h0, s)).
Proof.
  do 2 eexists. split; [reflexivity|]. split; [vm_compute|]; reflexivity.
Qed.

(** C10, amended, at work: a write of no sample on a fresh stream at
    8000 Hz, with speed 1.0 and with speed 2.0. *)
Lemma zero_sample_write_witness :
  (exists s h0,
     sonicCreateStream (i2d 1) 8000 [] = (Some s, h0) /\
     sonicWriteToStream [] 0 (h0, s)
     = Some ((if in_identity_window (speed s) then 0 else 1), (h0, s)) /\
     in_identity_window (speed s) = true) /\
  (exists s h0,
     sonicCreateStream (i2d 2) 8000 [] = (Some s, h0) /\
     sonicWriteToStream [] 0 (h0, s)
     = Some ((if in_identity_window (speed s) then 0 else 1), (h0, s)) /\
     in_identity_window (speed s) = false).
Proof.
  split; do 2 eexists; (split; [reflexivity|]); (split; [|vm_compute; reflexivity]).
  - apply zero_sample_write.
    + intros _. concrete_wf.
    + intros H; vm_compute in H; discriminate H.
  - apply zero_sample_write.
    + intros H; vm_compute in H; discriminate H.
    + intros _. apply Z.ltb_lt; vm_compute; reflexivity.
Defined.



(** C3: the claim fails for a sample rate below [SONIC_MAX_PITCH]: at
    100 Hz, [minPeriod] is [100/400 = 0]. *)
Lemma period_bounds_counterexample :
  ~ (forall spd rate h s h0,
       d_lt (d_lit 0) spd = true -> 0 < rate ->
       sonicCreateStream spd rate h = (Some s, h0) ->
       0 < minPeriod s <= maxPeriod s /\ maxRequired s = 2 * maxPeriod s).
Proof.
  intros H.
  destruct (H (i2d 2) 100 [] _ _ eq_refl eq_refl eq_refl) as ((Hpos & _) & _).
  vm_compute in Hpos. discriminate Hpos.
Qed.

(** C3, amended, at work: a stream at 8000 Hz. *)
Lemma period_bounds_set_once_witness :
  exists s h0,
    sonicCreateStream (i2d 2) 8000 [] = (Some s, h0) /\
    (minPeriod s = Z.quot 8000 SONIC_MAX_PITCH /\
     maxPeriod s = Z.quot 8000 SONIC_MIN_PITCH /\
     0 < minPeriod s <= maxPeriod s /\
     maxRequired s = 2 * maxPeriod s) /\
    (forall calls out w',
       run_calls calls (h0, s) = Some (out, w') ->
       minPeriod (snd w') = minPeriod s /\
       maxPeriod (snd w') = maxPeriod s /\
       maxRequired (snd w') = maxRequired s).
Proof.
  do 2 eexists. split; [reflexivity|].
  apply (period_bounds_set_once (i2d 2) 8000 []);
    [ cbn; lia | cbn; lia | reflexivity ].
Defined.







(** C2 on the code: at 8000 Hz and speed 2.0, after a write of the samples
    1 to 100, the flush returns 1 and leaves 206 samples in the input queue,
    the samples 41 to 100 first; reading the 20 samples of the output
    queue does not change that. *)
Theorem flush_leaves_input_queued :
  exists h s,
    world_after (i2d 2) 8000 [Write (ramp 100) 100] = Some (h, s) /\
    exists w',
      sonicFlushStream (h, s) = Some (1, w') /\
      numInputSamples (snd w') = 206 /\
      take 60 (inputQueue (snd w')) = drop 40 (ramp 100) /\
      exists out w'',
        sonicReadFromStream 20 w' = Some ((20, out), w'') /\
        sonicSamplesAvailale w'' = Some (0, w'') /\
        numInputSamples (snd w'') = 206.
Proof.
  exists_result. exists_result.
  split; [by_evaluation|]. split; [by_evaluation|].
  exists_result. split; [reflexivity | by_evaluation].
Qed.

(** C4 on the code: at 8000 Hz the periods go from 20 to 123.  At speed
    1000.0, [skipPitchPeriod] with the period 20 computes
    [newSamples = (int)(20/999.0) = 0] and returns 0, and
    [sonicWriteToStream] of 246 samples returns 0; at speed 0.001,
    [insertPitchPeriod] computes [(int)(20*0.001/0.999) = 0] and returns 0.
    In all three the allocator grants every request and the output buffer
    is still allocated. *)
Theorem zero_newSamples_without_allocation_failure :
  (exists s h0,
     sonicCreateStream (i2d 1000) 8000 [] = (Some s, h0) /\
     all_granted h0 /\
     minPeriod s <= 20 <= maxPeriod s /\
     findPitchPeriod s (silence 246) = Some 20 /\
     skipPitchPeriod (silence 246) (i2d 1000) 20 (h0, s) = Some (0, (h0, s)) /\
     exists w',
       sonicWriteToStream (silence 246) 246 (h0, s) = Some (0, w') /\
       outputBuffer (snd w') <> None /\ inputBuffer (snd w') <> None) /\
  (exists s h0,
     sonicCreateStream (d_lit (1 # 1000)) 8000 [] = (Some s, h0) /\
     all_granted h0 /\
     exists w',
       insertPitchPeriod (silence 246) (d_lit (1 # 1000)) 20 (h0, s)
       = Some (0, w') /\
       outputBuffer (snd w') <> None).
Proof.
  split.
  - do 2 eexists. split; [reflexivity|]. split; [constructor|].
    split; [split; by_evaluation|]. split; [by_evaluation|].
    split; [reflexivity|].
    exists_result. split; vm_compute; discriminate.
  - do 2 eexists. split; [reflexivity|]. split; [constructor|].
    exists_result. vm_compute; discriminate.
Qed.
(* ------------------------------------------------------------------ *)
(** ** Concrete runs of the further properties

    Streams at 800 Hz: the periods go from 2 to 12 and a window is 24
    samples. *)

(** [stream_ok] on a concrete stream. *)
Ltac concrete_ok :=
  split; [concrete_wf|]; split; [concrete_wf|];
  split; [split; by_evaluation|]; split; by_evaluation.

(** X1 at work: a creation with every request granted, and one whose second
    request is refused. *)
Lemma sonicCreateStream_outcome_witness :
  let outcome (h : heap) :=
    match sonicCreateStream (i2d 2) 800 h with
    | (Some s, h') =>
        hd true h = true /\ hd true (tl h) = true /\ hd true (tl (tl h)) = true /\
        h' = tl (tl (tl h)) /\
        stream_ok s /\ inputQueue s = [] /\ outputQueue s = [] /\
        remainingInputToCopy s = 0 /\
        inputBufferSize s = 2 * maxPeriod s /\
        outputBufferSize s = 2 * maxPeriod s /\
        speed s = i2d 2 /\ sampleRate s = 800
    | (None, h') =>
        (hd true h = false /\ h' = tl h) \/
        (hd true h = true /\ hd true (tl h) = false /\ h' = tl (tl h)) \/
        (hd true h = true /\ hd true (tl h) = true /\
         hd true (tl (tl h)) = false /\ h' = tl (tl (tl h)))
    end in
  (outcome [] /\ fst (sonicCreateStream (i2d 2) 800 []) <> None) /\
  (outcome [true; false] /\
   sonicCreateStream (i2d 2) 800 [true; false] = (None, [])).
Proof.
  intros outcome. split; (split; [|]).
  - apply (sonicCreateStream_outcome (i2d 2) 800 []); cbn; lia.
  - cbn; discriminate.
  - apply (sonicCreateStream_outcome (i2d 2) 800 [true; false]); cbn; lia.
  - reflexivity.
Defined.


(** X3 at work: 4 of 10 queued samples removed. *)
Lemma removeInputSamples_contract_witness :
  exists h s,
    world_after (i2d 2) 800 [Write (ramp 10) 10] = Some (h, s) /\
    exists s',
      removeInputSamples 4 (h, s) = Some (tt, (h, s')) /\
      wf_input s' /\
      inputQueue s' = drop 4 (inputQueue s) /\
      numInputSamples s' = numInputSamples s - 4 /\
      inputBufferSize s' = inputBufferSize s /\
      remainingInputToCopy s' = remainingInputToCopy s /\
      same_config s s' /\ same_output s s'.
Proof.
  exists_result.
  apply removeInputSamples_contract; [concrete_wf | split; by_evaluation].
Defined.


(** X5 at work: 3 samples read of the 5 available. *)
Lemma sonicSamplesAvailale_counts_reads_witness :
  exists h s,
    world_after (i2d 1) 800 [Write (ramp 5) 5] = Some (h, s) /\
    exists available out s',
      sonicSamplesAvailale (h, s) = Some (available, (h, s)) /\
      available = Zlen (outputQueue s) /\
      sonicReadFromStream 3 (h, s) = Some ((Z.min available 3, out), (h, s')) /\
      Zlen out = Z.min available 3 /\
      sonicSamplesAvailale (h, s') = Some (available - Zlen out, (h, s')) /\
      (available <= 3 -> sonicSamplesAvailale (h, s') = Some (0, (h, s'))).
Proof.
  exists_result.
  apply sonicSamplesAvailale_counts_reads; [concrete_wf | lia].
Defined.

(** X6 at work: the wave of period 4 searched over the periods 2, 4, ...,
    12, and over the empty range from 5 to 4. *)
Lemma findPitchPeriodInRange_result_in_range_witness :
  let window := square_wave 6 in
  (exists best,
     findPitchPeriodInRange window 2 12 2 = Some best /\
     if 12 <? 2 then best = 0 else 2 <= best <= 12 /\ (best - 2) mod 2 = 0) /\
  (exists best,
     findPitchPeriodInRange window 5 4 1 = Some best /\
     if 4 <? 5 then best = 0 else 5 <= best <= 4 /\ (best - 5) mod 1 = 0).
Proof.
  intros window. split.
  - apply (findPitchPeriodInRange_result_in_range window 2 12 2);
      [lia | by_evaluation].
  - apply (findPitchPeriodInRange_result_in_range window 5 4 1);
      [lia | by_evaluation].
Defined.

(** X7 at work: the period of the wave of period 4, found by a fresh
    stream. *)
Lemma findPitchPeriod_result_in_bounds_witness :
  let window := square_wave 6 in
  exists s h0,
    sonicCreateStream (i2d 2) 800 [] = (Some s, h0) /\
    findPitchPeriod s window = Some 4 /\
    exists period,
      findPitchPeriod s window = Some period /\
      (minPeriod s <= period <= maxPeriod s \/
       period = 0 /\
       exists coarse,
         findPitchPeriodInRange window (minPeriod s) (maxPeriod s)
           (if sampleRate s >? SONIC_AMDF_FREQ
            then Z.quot (sampleRate s) SONIC_AMDF_FREQ else 1) = Some coarse /\
         Z.min (d2i (d_mul (i2d coarse) (d_add (d_lit 1) SONIC_AMDF_RANGE)))
               (maxPeriod s)
         < Z.max (d2i (d_mul (i2d coarse) (d_sub (d_lit 1) SONIC_AMDF_RANGE)))
                 (minPeriod s)).
Proof.
  intros window. do 2 eexists. split; [reflexivity|].
  split; [by_evaluation|].
  apply findPitchPeriod_result_in_bounds; [cbn; lia | by_evaluation].
Defined.

(** X8 at work: 10 samples written to a fresh stream at speed 2.0, with an
    allocator that would refuse any request. *)
Lemma sonicWriteToStream_below_window_witness :
  exists s h0,
    sonicCreateStream (i2d 2) 800 [] = (Some s, h0) /\
    let h := [false] in
    exists s',
      sonicWriteToStream (ramp 10) 10 (h, s) = Some (1, (h, s')) /\
      same_config s s' /\ same_output s s' /\
      remainingInputToCopy s' = remainingInputToCopy s /\
      stream_ok s' /\
      inputBufferSize s' = inputBufferSize s /\
      inputQueue s' = inputQueue s ++ take 10 (ramp 10) /\
      numInputSamples s' = numInputSamples s + 10.
Proof.
  do 2 eexists. split; [reflexivity|]. intros h.
  apply sonicWriteToStream_below_window;
    [ concrete_ok | by_evaluation | in_bounds | by_evaluation ].
Defined.




(** X12 at work: with 20 samples in the output queue of a stream whose
    buffer holds 24 cells, a write of 10 samples is refused the memory it
    asks for; the read that follows is undefined. *)
Lemma read_after_failed_write_is_undefined_witness :
  exists h s,
    world_after (i2d 1) 800 [Write (ramp 20) 20] = Some (h, s) /\
    exists w',
      sonicWriteToStream (ramp 10) 10 ([false], s) = Some (0, w') /\
      0 < numOutputSamples s /\
      hd true [false] = false /\ outputBuffer (snd w') = None /\
      numOutputSamples (snd w') = numOutputSamples s /\
      (0 < numOutputSamples s -> sonicReadFromStream 5 w' = None).
Proof.
  exists_result. exists_result. split; [by_evaluation|].
  lazymatch goal with
  | |- context [sonicReadFromStream 5 (?h', ?s')] =>
      apply (read_after_failed_write_is_undefined [false] _ (ramp 10) 10 h' s' 5);
        [ concrete_wf | by_evaluation | in_bounds | reflexivity ]
  end.
Defined.

(** X13 at work: the wave of period 4 over a window, followed or not by
    other samples. *)
Lemma pitch_search_reads_the_window_only_witness :
  let w := square_wave 6 in
  let w' := square_wave 6 ++ ramp 3 in
  exists s h0,
    sonicCreateStream (i2d 2) 800 [] = (Some s, h0) /\
    w <> w' /\
    findPitchPeriod s w = findPitchPeriod s w' /\
    forall minP maxP skip,
      1 <= skip -> maxP <= maxPeriod s ->
      findPitchPeriodInRange w minP maxP skip
      = findPitchPeriodInRange w' minP maxP skip.
Proof.
  intros w w'. do 2 eexists. split; [reflexivity|].
  split.
  { intros H. apply (f_equal (@length _)) in H. vm_compute in H. discriminate H. }
  apply pitch_search_reads_the_window_only; [cbn; lia | by_evaluation].
Defined.

(** X14 at work: the first turn of the loop at speed 2.0 on a window of
    the wave of period 4, followed by silence or by other samples. *)
Lemma writeStep_reads_the_window_only_witness :
  let samples := square_wave 6 ++ silence 4 in
  let samples' := square_wave 6 ++ ramp 4 in
  exists s h0,
    sonicCreateStream (i2d 2) 800 [] = (Some s, h0) /\
    samples <> samples' /\
    writeStep (i2d 2) samples 0 (h0, s) = writeStep (i2d 2) samples' 0 (h0, s).
Proof.
  intros samples samples'. do 2 eexists. split; [reflexivity|].
  split.
  { intros H. apply (f_equal (fun l => nth 24 l f_zero)) in H.
    vm_compute in H. discriminate H. }
  apply writeStep_reads_the_window_only;
    [ cbn; lia | by_evaluation | split; by_evaluation | by_evaluation | lia
    | by_evaluation | by_evaluation | by_evaluation | by_evaluation ].
Defined.
